(** * Treeherder ingestion: a shallow embedding of
    treeherder/etl/common.py (get_guid_root) and
    treeherder/etl/management/commands/ingest.py
  and the properties of its specification checked against it. *)

From Stdlib Require Import Ascii String ZArith Lia.
From stdpp Require Import base tactics option list strings gmap fin_maps.

Local Open Scope Z_scope.
Local Open Scope nat_scope.

(** ** Python strings *)

Module PyStr.

(** [c in s] for a one-character needle. *)
Fixpoint contains (c : ascii) (s : string) : bool :=
  match s with
  | EmptyString => false
  | String a s' => if Ascii.eqb a c then true else contains c s'
  end.

(** [maxsplit] as Python passes it: [None] is "no limit". *)
Definition may_split (maxsplit : option nat) : bool :=
  match maxsplit with
  | Some 0 => false
  | _ => true
  end.

Definition one_less (maxsplit : option nat) : option nat :=
  match maxsplit with
  | Some n => Some (Nat.pred n)
  | None => None
  end.

(** [s.split(sep, maxsplit)] for a one-character separator. *)
Fixpoint split (sep : ascii) (maxsplit : option nat) (s : string) : list string :=
  match s with
  | EmptyString => [EmptyString]
  | String a s' =>
      if may_split maxsplit && Ascii.eqb a sep
      then EmptyString :: split sep (one_less maxsplit) s'
      else match split sep maxsplit s' with
           | piece :: pieces => String a piece :: pieces
           | [] => [String a EmptyString]
           end
  end.

(** The characters of [s] in front of its first [c] (all of [s] when it has
    none): the specification's "prefix before the first underscore". *)
Fixpoint prefix_before (c : ascii) (s : string) : string :=
  match s with
  | EmptyString => EmptyString
  | String a s' => if Ascii.eqb a c then EmptyString else String a (prefix_before c s')
  end.

Lemma split_head sep maxsplit s :
  may_split maxsplit = true ->
  exists pieces, split sep maxsplit s = prefix_before sep s :: pieces.
Proof.
  intros Hm. induction s as [|a s IH]; simpl.
  - by exists [].
  - rewrite Hm. simpl. destruct (Ascii.eqb a sep).
    + eauto.
    + destruct IH as [pieces ->]. eauto.
Qed.

Lemma split_no_sep sep maxsplit s :
  contains sep s = false -> split sep maxsplit s = [s].
Proof.
  induction s as [|a s IH]; simpl; [done|].
  destruct (Ascii.eqb a sep); [done|].
  intros H. rewrite andb_false_r. by rewrite IH.
Qed.

Lemma prefix_before_no_sep c s : contains c (prefix_before c s) = false.
Proof.
  induction s as [|a s IH]; simpl; [done|].
  destruct (Ascii.eqb a c) eqn:E; [done|]. simpl. by rewrite E.
Qed.

Lemma prefix_before_id c s : contains c s = false -> prefix_before c s = s.
Proof.
  induction s as [|a s IH]; simpl; [done|].
  destruct (Ascii.eqb a c); [done|]. intros H. by rewrite IH.
Qed.

(** How many times [c] occurs in [s]. *)
Fixpoint count (c : ascii) (s : string) : nat :=
  match s with
  | EmptyString => 0
  | String a s' => if Ascii.eqb a c then S (count c s') else count c s'
  end.

(** Without a limit, a string is split at each separator. *)
Lemma split_length sep s : length (split sep None s) = S (count sep s).
Proof.
  induction s as [|a s IH]; simpl; [done|].
  destruct (Ascii.eqb a sep); simpl; [by rewrite IH|].
  destruct (split sep None s); simpl in *; lia.
Qed.

Lemma split_sep_first sep s : split sep None (String sep s) = EmptyString :: split sep None s.
Proof. simpl. by rewrite Ascii.eqb_refl. Qed.

Lemma split_app_sep sep s1 s2 :
  contains sep s1 = false ->
  split sep None (s1 +:+ String sep s2) = s1 :: split sep None s2.
Proof.
  induction s1 as [|a s1 IH]; simpl.
  - intros _. by rewrite Ascii.eqb_refl.
  - destruct (Ascii.eqb a sep); [done|]. intros H. simpl. by rewrite IH.
Qed.

(** [s.find(sub)]: the index of the first occurrence of [sub], and -1 when
    there is none. *)
Definition find (sub s : string) : Z :=
  match String.index 0 sub s with
  | Some at_index => Z.of_nat at_index
  | None => (-1)%Z
  end.

End PyStr.

(** ** treeherder/etl/common.py *)

Module Common.

Definition underscore : ascii := "_"%char.

(** [get_guid_root], on a guid that is a string ([str(guid)] is then [guid]).
    [split] never returns an empty list, so the index [[0]] is always there. *)
Definition get_guid_root (guid : string) : string :=
  if PyStr.contains underscore guid
  then default EmptyString (PyStr.split underscore (Some 1) guid !! 0)
  else guid.

Example get_guid_root_suffix :
  get_guid_root "d22c74d4aa6d2a1dcba96d95dccbd5fdca70cf33_1431468" =
  "d22c74d4aa6d2a1dcba96d95dccbd5fdca70cf33".
Proof. reflexivity. Qed.

Example get_guid_root_plain : get_guid_root "abc" = "abc".
Proof. reflexivity. Qed.

Example get_guid_root_two : get_guid_root "a_b_c" = "a".
Proof. reflexivity. Qed.

Lemma get_guid_root_prefix guid :
  get_guid_root guid = PyStr.prefix_before underscore guid.
Proof.
  unfold get_guid_root. destruct (PyStr.contains underscore guid) eqn:E.
  - destruct (PyStr.split_head underscore (Some 1) guid) as [pieces ->]; done.
  - by rewrite PyStr.prefix_before_id.
Qed.

(** C10: [get_guid_root] is idempotent, and its result is the prefix of the
    guid before the first underscore when the guid has one, and the guid
    itself otherwise. *)
Theorem get_guid_root_idempotent (guid : string) :
  get_guid_root (get_guid_root guid) = get_guid_root guid
  /\ get_guid_root guid =
       (if PyStr.contains underscore guid
        then PyStr.prefix_before underscore guid
        else guid).
Proof.
  split.
  - rewrite (get_guid_root_prefix guid).
    unfold get_guid_root at 1.
    by rewrite PyStr.prefix_before_no_sep.
  - destruct (PyStr.contains underscore guid) eqn:E.
    + apply get_guid_root_prefix.
    + unfold get_guid_root. by rewrite E.
Qed.

End Common.

(** ** treeherder/etl/management/commands/ingest.py *)

Module Ingest.

(** *** Data, as the upstream services return it *)

(** One execution attempt, as [status.runs[i]] carries it. *)
Record Run := { runId : Z; state : string }.

(** [task["status"]]. *)
Record Status := { taskId : string; runs : list Run }.

(** [task["task"]]: the task definition. ingest.py hands it to the
    normalization collaborator untouched, so only its text is kept. *)
Inductive TaskDef := TaskDefinition (json : string).

(** An element of [listTaskGroup(...)["tasks"]], also what [handleTaskId]
    builds: [{"status": ..., "task": ...}]. *)
Record Task := { status : Status; task : TaskDef }.

(** A listing page; [continuationToken] is [response.get("continuationToken")]. *)
Record ListResponse := { tasks : list Task; continuationToken : option string }.

(** [message["payload"]]: [{"status": {"taskId", "runs"}, "runId"}]. *)
Record Payload := { payload_status : Status; payload_runId : Z }.

(** The message [handleTask] builds for the normalization collaborator. *)
Record Message := { exchange : string; payload : Payload; root_url : string }.

(** A normalized job payload, as [handleMessage] returns it: the key
    [process_job_with_threads] reads, and the rest of it. *)
Record Job := { job_taskId : string; job_body : string }.

(** A row of the [Repository] table of the persistence layer. *)
Record Repository :=
  { repo_name : string; repo_url : string; repo_branch : string; repo_tc_root_url : string }.

(** What [repo_meta] returns, under the dict's keys. *)
Record RepoMeta :=
  { url : string; branch : string; owner : string; repo : string; tc_root_url : string }.

(** GitHub's commit objects: an entry of [parents], the inner [commit]
    object, and the commit itself. *)
Record ParentRef := { parent_sha : string; parent_url : string }.

Record CommitInfo := { message : string; author : string; committer : string }.

Record Commit := { sha : string; commit : CommitInfo; parents : list ParentRef }.

(** The comparison API's answer; [merge_base_commit] is
    [compareResponse.get("merge_base_commit")]. *)
Record CompareResponse := { merge_base_commit : option Commit; commits : list Commit }.

(** An element of the [commits] list [query_data] returns. *)
Record PushCommit :=
  { push_message : string; push_author : string; push_committer : string; push_id : string }.

(** The push event of [github_push_to_pulse]. *)
Record PushDetails :=
  { event_head_repo_url : string; event_base_repo_branch : string;
    event_base_sha : string; event_head_sha : string }.

Record PushPayload :=
  { organization : string; details : PushDetails;
    body_commits : list PushCommit; repository : string }.

Record Pulse := { pulse_exchange : string; routingKey : string; pulse_payload : PushPayload }.

(** *** Exceptions and the world *)

(** Python exceptions that derive from [Exception]. *)
Inductive exn :=
| KeyError (key : string)
| IndexError
| UnboundLocalError (variable : string)
| Failure (what : string).

(** How a call ends. [Diverged] is a loop that ran out of fuel. *)
Inductive outcome (A : Type) :=
| Returned (a : A)
| Raised (e : exn)
| Diverged.
Arguments Returned {A} a.
Arguments Raised {A} e.
Arguments Diverged {A}.

Inductive LogArg := ArgNat (n : nat) | ArgStr (s : string).

Inductive LogRecord :=
| Info (fmt : string) (args : list LogArg)
| Exception (e : exn).

(** What the program does to the outside, one event per call. *)
Inductive Event :=
| Log (r : LogRecord)
| HandleMessage (message : Message) (taskDefinition : TaskDef)
| AcquireConnection
| ReleaseConnection
| ProcessJob (pulse_job : Job) (root : string)
| ListTaskGroup (root : string) (taskGroupId : string) (query : option string)
| FetchJson (url : string)
| RepositoryFilter (name : string)
| PushProcess (pushed : PushPayload) (exch : string) (root : string).

(** The world is the history of events, oldest first. *)
Definition World := list Event.

(** *** A state and exception monad over the world *)

Definition M (A : Type) : Type := World -> outcome A * World.

Definition ret {A} (a : A) : M A := fun w => (Returned a, w).

Definition bind {A B} (c : M A) (k : A -> M B) : M B :=
  fun w =>
    match c w with
    | (Returned a, w') => k a w'
    | (Raised e, w') => (Raised e, w')
    | (Diverged, w') => (Diverged, w')
    end.

Definition raise {A} (e : exn) : M A := fun w => (Raised e, w).

Definition diverge {A} : M A := fun w => (Diverged, w).

Definition emit (ev : Event) : M unit := fun w => (Returned tt, w ++ [ev]).

(** [try: body / except Exception as e: handler e]. *)
Definition try_except {A} (body : M A) (handler : exn -> M A) : M A :=
  fun w =>
    match body w with
    | (Raised e, w') => handler e w'
    | other => other
    end.

Declare Scope ingest_scope.
Delimit Scope ingest_scope with ingest.
Notation "x <- c ;; k" := (bind c (fun x => k))
  (at level 20, c at level 99, k at level 200, only parsing) : ingest_scope.
Notation "c ;; k" := (bind c (fun _ => k))
  (at level 100, k at level 200, only parsing, right associativity) : ingest_scope.
Local Open Scope ingest_scope.

(** A call to a collaborator: the call is recorded, then it returns or raises. *)
Definition call {A} (ev : Event) (answer : exn + A) : M A :=
  emit ev ;;
  match answer with
  | inl e => raise e
  | inr a => ret a
  end.

Definition logger_info (fmt : string) (args : list LogArg) : M unit :=
  emit (Log (Info fmt args)).

Definition logger_exception (e : exn) : M unit :=
  emit (Log (Exception e)).

(** Python's [d[key]] and [l[i]]. *)
Definition getitem (d : gmap string string) (key : string) : M string :=
  match d !! key with
  | Some v => ret v
  | None => raise (KeyError key)
  end.

Definition index {A} (l : list A) (i : nat) : M A :=
  match l !! i with
  | Some x => ret x
  | None => raise IndexError
  end.

(** *** Observations of a world *)

Definition handled (w : World) : list (Message * TaskDef) :=
  omap (fun ev => match ev with HandleMessage m td => Some (m, td) | _ => None end) w.

Definition loaded (w : World) : list (Job * string) :=
  omap (fun ev => match ev with ProcessJob j r => Some (j, r) | _ => None end) w.

Definition logged (w : World) : list LogRecord :=
  omap (fun ev => match ev with Log r => Some r | _ => None end) w.

Definition requested (w : World) : list (option string) :=
  omap (fun ev => match ev with ListTaskGroup _ _ q => Some q | _ => None end) w.

Definition fetched (w : World) : list string :=
  omap (fun ev => match ev with FetchJson u => Some u | _ => None end) w.

Definition queried (w : World) : list string :=
  omap (fun ev => match ev with RepositoryFilter n => Some n | _ => None end) w.

Definition pushed_events (w : World) : list (PushPayload * string * string) :=
  omap (fun ev => match ev with PushProcess p e r => Some (p, e, r) | _ => None end) w.

(** Connection slots held: acquisitions not yet released. *)
Fixpoint slots_held (w : World) : Z :=
  match w with
  | [] => 0%Z
  | AcquireConnection :: w' => (slots_held w' + 1)%Z
  | ReleaseConnection :: w' => (slots_held w' - 1)%Z
  | _ :: w' => slots_held w'
  end.

(** *** The program *)

Section Program.

(** The collaborators ingest.py imports; none of them is part of it.
    [EXCHANGE_EVENT_MAP] is the handler's dict, as its [items()] in order. *)
Variable EXCHANGE_EVENT_MAP : list (string * string).
Variable handleMessage : Message -> TaskDef -> exn + list Job.
Variable process_job : Job -> string -> exn + unit.
Variable listTaskGroup : string -> string -> option string -> exn + ListResponse.
Variable Repository_objects : list Repository.
Variable compare_json : string -> exn + CompareResponse.
Variable commit_json : string -> exn + Commit.
Variable PushLoader_process : PushPayload -> string -> string -> exn + unit.

(** Lines 43-45: [stateToExchange[value] = key] for every item. *)
Definition stateToExchange : gmap string string :=
  foldl (fun d item => <[item.2 := item.1]> d) (∅ : gmap string string) EXCHANGE_EVENT_MAP.

(** The same lines as the statement the import runs: nothing in the loop
    raises, so the import always gets the dict. *)
Definition import_stateToExchange : outcome (gmap string string) :=
  Returned stateToExchange.

(** Modelled from the spec: treeherder/etl/db_semaphore.py is not among the
    sources. [acquire_connection] takes a slot of the shared database-connection
    resource and [release_connection] gives one back; waiting for a free slot
    is not modelled. *)
Definition acquire_connection : M unit := emit AcquireConnection.

Definition release_connection : M unit := emit ReleaseConnection.

(** [process_job_with_threads]; the format is the source's literal. *)
Definition process_job_with_threads (pulse_job : Job) (root_url : string) : M unit :=
  acquire_connection ;;
  logger_info "Loading into DB:\t%s" [ArgStr (job_taskId pulse_job)] ;;
  call (ProcessJob pulse_job root_url) (process_job pulse_job root_url) ;;
  release_connection.

(** [routine_to_future]: the routine runs in a worker thread and the caller
    waits for it; what it raises is raised where it is awaited. The futures of
    a batch are coroutine objects, started only when [await_futures] reaches
    them, so they run one after the other. *)
Definition routine_to_future {A} (func : A -> string -> M unit) (arg : A) (root_url : string)
  : M unit :=
  func arg root_url.

(** [await_futures]. *)
Fixpoint await_futures (fs : list (M unit)) : M unit :=
  match fs with
  | [] => ret tt
  | fut :: rest =>
      try_except fut (fun e => logger_exception e) ;;
      await_futures rest
  end.

(** The [message] dict of [handleTask], lines 63-73, once the exchange has
    been looked up. *)
Definition message_for (t : Task) (root : string) (run : Run) (exch : string) : Message :=
  {| exchange := exch;
     payload := {| payload_status := {| taskId := taskId (status t);
                                        runs := runs (status t) |};
                   payload_runId := runId run |};
     root_url := root |}.

(** The body of [handleTask]'s loop for one run. [taskRuns] is the local
    variable: [None] while it is unbound. *)
Definition handleTask_run (t : Task) (root_url : string) (run : Run)
    (taskRuns : option (list Job)) : M (option (list Job)) :=
  exch <- getitem stateToExchange (state run) ;;
  let message := message_for t root_url run exch in
  taskRuns <- try_except
                (jobs <- call (HandleMessage message (task t))
                              (handleMessage message (task t)) ;;
                 ret (Some jobs))
                (fun e => logger_exception e ;; ret taskRuns) ;;
  match taskRuns with
  | None => raise (UnboundLocalError "taskRuns")
  | Some [] => ret taskRuns
  | Some jobs =>
      await_futures
        (map (fun job => routine_to_future process_job_with_threads job root_url) jobs) ;;
      ret taskRuns
  end.

Fixpoint handleTask_loop (t : Task) (root_url : string) (todo : list Run)
    (taskRuns : option (list Job)) : M unit :=
  match todo with
  | [] => ret tt
  | run :: rest =>
      taskRuns <- handleTask_run t root_url run taskRuns ;;
      handleTask_loop t root_url rest taskRuns
  end.

(** [handleTask]: [for run in reversed(runs)]. *)
Definition handleTask (t : Task) (root_url : string) : M unit :=
  handleTask_loop t root_url (rev (runs (status t))) None.

(** [fetchGroupTasks]'s [while True], with the locals [tasks], [query] and
    [continuationToken] as arguments. [fuel] bounds the number of requests. *)
Fixpoint fetchGroupTasks_loop (fuel : nat) (taskGroupId root_url : string)
    (tasks_so_far : list Task) (query : option string) (token : string)
  : M (list Task) :=
  match fuel with
  | O => diverge
  | S fuel' =>
      let query := if decide (token = EmptyString) then query else Some token in
      response <- call (ListTaskGroup root_url taskGroupId query)
                       (listTaskGroup root_url taskGroupId query) ;;
      let tasks_so_far := tasks_so_far ++ tasks response in
      match continuationToken response with
      | None => ret tasks_so_far
      | Some token' =>
          logger_info "Requesting more tasks. %s tasks so far..."
                      [ArgNat (length tasks_so_far)] ;;
          fetchGroupTasks_loop fuel' taskGroupId root_url tasks_so_far query token'
      end
  end.

Definition fetchGroupTasks (fuel : nat) (taskGroupId root_url : string) : M (list Task) :=
  fetchGroupTasks_loop fuel taskGroupId root_url [] None EmptyString.

(** [processTasks]. The local [tasks] is bound only when the [try] body got
    past its first statement. *)
Definition processTasks (fuel : nat) (taskGroupId root_url : string) : M unit :=
  bound <- try_except
             (fetched_tasks <- fetchGroupTasks fuel taskGroupId root_url ;;
              logger_info "We have %s tasks to process" [ArgNat (length fetched_tasks)] ;;
              ret (Some fetched_tasks))
             (fun e => logger_exception e ;; ret None) ;;
  match bound with
  | None => raise (UnboundLocalError "tasks")
  | Some [] => ret tt
  | Some batch =>
      await_futures (map (fun t => routine_to_future handleTask t root_url) batch)
  end.

(** [fetch_json] of common.py, at a URL whose JSON has the shape [A]:
    [answer] is what the request gives ([raise_for_status] raises). *)
Definition fetch_json {A} (answer : string -> exn + A) (address : string) : M A :=
  call (FetchJson address) (answer address).

Definition GITHUB_API : string := "https://api.github.com".

(** [fetchApi]; the [headers] it builds are not passed on. *)
Definition fetchApi {A} (answer : string -> exn + A) (path : string) : M A :=
  fetch_json answer (GITHUB_API +:+ "/" +:+ path).

Definition compare_path (_repo : RepoMeta) (base head : string) : string :=
  "repos/" +:+ owner _repo +:+ "/" +:+ repo _repo +:+ "/compare/" +:+ base +:+ "..." +:+ head.

Definition compareUrl (_repo : RepoMeta) (base head : string) : M CompareResponse :=
  fetchApi compare_json (compare_path _repo base head).

(** [repo_meta]. A model instance is truthy, so the [assert] passes. *)
Definition repo_meta (project : string) : M RepoMeta :=
  emit (RepositoryFilter project) ;;
  _repo <- index (filter (fun r => repo_name r = project) Repository_objects) 0 ;;
  let splitUrl := PyStr.split "/"%char None (repo_url _repo) in
  the_owner <- index splitUrl 3 ;;
  the_repo <- index splitUrl 4 ;;
  ret {| url := repo_url _repo;
         branch := repo_branch _repo;
         owner := the_owner;
         repo := the_repo;
         tc_root_url := repo_tc_root_url _repo |}.

(** [query_data]'s [for parent in parents], with the local [eventBaseSha]. *)
Fixpoint query_data_parents (todo : list ParentRef) (eventBaseSha : string) : M string :=
  match todo with
  | [] => ret eventBaseSha
  | parent :: rest =>
      _commit <- fetch_json commit_json (parent_url parent) ;;
      match parents _commit with
      | [] => query_data_parents rest eventBaseSha
      | _ :: _ =>
          logger_info "We have a new base: %s" [ArgStr (parent_sha parent)] ;;
          ret (parent_sha parent)
      end
  end.

Definition push_commit (_commit : Commit) : PushCommit :=
  {| push_message := message (commit _commit);
     push_author := author (commit _commit);
     push_committer := committer (commit _commit);
     push_id := sha _commit |}.

(** [query_data]. *)
Definition query_data (meta : RepoMeta) (head : string) : M (string * list PushCommit) :=
  let eventBaseSha := branch meta in
  compareResponse <- compareUrl meta (branch meta) head ;;
  found <- match merge_base_commit compareResponse with
           | Some mergeBaseCommit =>
               logger_info "We have a merge commit. We need to find the right eventBaseSha" [] ;;
               eventBaseSha <- query_data_parents (parents mergeBaseCommit) eventBaseSha ;;
               compareResponse <- compareUrl meta eventBaseSha head ;;
               ret (eventBaseSha, compareResponse)
           | None => ret (eventBaseSha, compareResponse)
           end ;;
  ret (found.1, map push_commit (commits found.2)).

(** [github_push_to_pulse]. *)
Definition github_push_to_pulse (meta : RepoMeta) (head : string) : M Pulse :=
  found <- query_data meta head ;;
  ret {| pulse_exchange := "exchange/taskcluster-github/v1/push";
         routingKey := "primary." +:+ owner meta +:+ "." +:+ repo meta;
         pulse_payload :=
           {| organization := owner meta;
              details := {| event_head_repo_url := url meta +:+ ".git";
                            event_base_repo_branch := branch meta;
                            event_base_sha := found.1;
                            event_head_sha := head |};
              body_commits := found.2;
              repository := repo meta |} |}.

(** [ingestGitPush]; [commit] is a commit object of the GitHub API. *)
Definition ingestGitPush (project : string) (c : Commit) : M unit :=
  _repo <- repo_meta "fenix" ;;
  pulse <- github_push_to_pulse _repo (sha c) ;;
  call (PushProcess (pulse_payload pulse) (pulse_exchange pulse) (tc_root_url _repo))
       (PushLoader_process (pulse_payload pulse) (pulse_exchange pulse) (tc_root_url _repo)).

(** *** Facts about the monad and the observations *)

Lemma handled_app (w evs : World) : handled (w ++ evs) = handled w ++ handled evs.
Proof. apply omap_app. Qed.

Lemma loaded_app (w evs : World) : loaded (w ++ evs) = loaded w ++ loaded evs.
Proof. apply omap_app. Qed.

Lemma requested_app (w evs : World) : requested (w ++ evs) = requested w ++ requested evs.
Proof. apply omap_app. Qed.

Lemma fetched_app (w evs : World) : fetched (w ++ evs) = fetched w ++ fetched evs.
Proof. apply omap_app. Qed.

Lemma queried_app (w evs : World) : queried (w ++ evs) = queried w ++ queried evs.
Proof. apply omap_app. Qed.

Lemma slots_held_app (w evs : World) :
  slots_held (w ++ evs) = (slots_held w + slots_held evs)%Z.
Proof.
  induction w as [|ev w IH]; simpl; [lia|].
  destruct ev; rewrite ?IH; lia.
Qed.

Lemma call_returns {A} (ev : Event) (a : A) (w : World) :
  call ev (inr a) w = (Returned a, w ++ [ev]).
Proof. reflexivity. Qed.

Lemma call_raises {A} (ev : Event) (e : exn) (w : World) :
  call (A := A) ev (inl e) w = (Raised e, w ++ [ev]).
Proof. reflexivity. Qed.

Lemma bind_assoc {A B C} (c : M A) (k1 : A -> M B) (k2 : B -> M C) (w : World) :
  bind (bind c k1) k2 w = bind c (fun a => bind (k1 a) k2) w.
Proof. unfold bind. by destruct (c w) as [[a|e|] w1]. Qed.

(** What one awaited unit leaves behind: its own effects, and a log record
    when it raised. *)
Definition isolated (fut : M unit) (w : World) : World :=
  match fut w with
  | (Raised e, w') => w' ++ [Log (Exception e)]
  | (_, w') => w'
  end.

Lemma await_futures_step (fut : M unit) (rest : list (M unit)) (w : World) :
  (fut w).1 <> Diverged ->
  await_futures (fut :: rest) w = await_futures rest (isolated fut w).
Proof.
  intros Hterm. simpl. unfold bind, try_except, isolated.
  destruct (fut w) as [[[]|e|] w1]; simpl in *; [done|done|congruence].
Qed.

(** C4: a batch of work units is awaited to its end whatever the units do.
    When every unit terminates (returns or raises), [await_futures] returns
    normally, and the world it leaves is the one obtained by running every
    unit of the batch, in order, each from the world its predecessors left,
    a unit that raised adding one log record; no unit is skipped because an
    earlier one raised. *)
Theorem await_futures_isolates (fs : list (M unit)) (w : World) :
  (forall fut w0, fut ∈ fs -> (fut w0).1 <> Diverged) ->
  await_futures fs w = (Returned tt, foldl (fun w0 fut => isolated fut w0) w fs).
Proof.
  revert w. induction fs as [|fut rest IH]; intros w Hterm.
  - reflexivity.
  - rewrite await_futures_step by (apply Hterm; left).
    simpl. apply IH. intros fut' w0 Hin. apply Hterm. by right.
Qed.

(** *** Loading jobs *)

Lemma process_job_with_threads_runs (pulse_job : Job) (root : string) (w : World) :
  process_job_with_threads pulse_job root w =
  match process_job pulse_job root with
  | inr _ =>
      (Returned tt,
       w ++ [AcquireConnection;
             Log (Info "Loading into DB:\t%s" [ArgStr (job_taskId pulse_job)]);
             ProcessJob pulse_job root;
             ReleaseConnection])
  | inl e =>
      (Raised e,
       w ++ [AcquireConnection;
             Log (Info "Loading into DB:\t%s" [ArgStr (job_taskId pulse_job)]);
             ProcessJob pulse_job root])
  end.
Proof.
  unfold process_job_with_threads, acquire_connection, release_connection,
    logger_info, call, bind, emit, raise, ret.
  destruct (process_job pulse_job root) as [e|[]]; simpl;
    rewrite <- ?app_assoc; reflexivity.
Qed.

(** The jobs of one run are all loaded, and loading never fails the caller. *)
Lemma await_jobs_returns (jobs : list Job) (root : string) (w : World) :
  exists w',
    await_futures
      (map (fun job => routine_to_future process_job_with_threads job root) jobs) w
    = (Returned tt, w')
    /\ handled w' = handled w.
Proof.
  revert w. induction jobs as [|job jobs IH]; intros w; simpl map.
  - by exists w.
  - rewrite await_futures_step.
    + destruct (IH (isolated (routine_to_future process_job_with_threads job root) w))
        as (w' & -> & Hh).
      exists w'. split; [done|]. rewrite Hh.
      unfold isolated, routine_to_future. rewrite process_job_with_threads_runs.
      destruct (process_job job root); rewrite ?handled_app; simpl;
        by rewrite ?app_nil_r.
    + unfold routine_to_future. rewrite process_job_with_threads_runs.
      by destruct (process_job job root).
Qed.

(** *** Classifying the runs of a task *)

Lemma handleTask_run_classified (t : Task) (root : string) (run : Run) (exch : string)
    (jobs : list Job) (taskRuns : option (list Job)) (w : World) :
  stateToExchange !! state run = Some exch ->
  handleMessage (message_for t root run exch) (task t) = inr jobs ->
  exists w',
    handleTask_run t root run taskRuns w = (Returned (Some jobs), w')
    /\ handled w' = handled w ++ [(message_for t root run exch, task t)].
Proof.
  intros Hexch Hmsg.
  unfold handleTask_run, getitem. rewrite Hexch.
  unfold bind at 1. unfold ret at 1.
  unfold bind at 1. unfold try_except, bind at 1.
  rewrite Hmsg, call_returns. unfold ret at 1.
  destruct jobs as [|job jobs].
  - eexists. split; [reflexivity|]. by rewrite handled_app.
  - unfold bind.
    destruct (await_jobs_returns (job :: jobs) root
                (w ++ [HandleMessage (message_for t root run exch) (task t)]))
      as (w' & -> & Hh).
    exists w'. split; [reflexivity|]. by rewrite Hh, handled_app.
Qed.

(** What the claim says of the invocation made for [run]. *)
Definition invoked_for (t : Task) (root : string) (run : Run)
    (invocation : Message * TaskDef) : Prop :=
  stateToExchange !! state run = Some (exchange invocation.1)
  /\ runs (payload_status (payload invocation.1)) = runs (status t)
  /\ taskId (payload_status (payload invocation.1)) = taskId (status t)
  /\ payload_runId (payload invocation.1) = runId run
  /\ root_url invocation.1 = root
  /\ invocation.2 = task t.

Lemma handleTask_loop_classified (t : Task) (root : string) (todo : list Run)
    (taskRuns : option (list Job)) (w : World) :
  (forall run, run ∈ todo -> is_Some (stateToExchange !! state run)) ->
  (forall run exch, run ∈ todo -> stateToExchange !! state run = Some exch ->
     exists jobs, handleMessage (message_for t root run exch) (task t) = inr jobs) ->
  exists w' invocations,
    handleTask_loop t root todo taskRuns w = (Returned tt, w')
    /\ handled w' = handled w ++ invocations
    /\ Forall2 (invoked_for t root) todo invocations.
Proof.
  revert taskRuns w. induction todo as [|run rest IH]; intros taskRuns w Hstate Hok.
  - exists w, []. split; [done|]. split; [by rewrite app_nil_r|constructor].
  - destruct (Hstate run) as [exch Hexch]; [left|].
    destruct (Hok run exch) as [jobs Hjobs]; [left|done|].
    destruct (handleTask_run_classified t root run exch jobs taskRuns w Hexch Hjobs)
      as (w1 & Hrun & Hh1).
    destruct (IH (Some jobs) w1) as (w' & invocations & Hloop & Hh & Hall).
    { intros r Hr. apply Hstate. by right. }
    { intros r e Hr. apply Hok. by right. }
    exists w', ((message_for t root run exch, task t) :: invocations).
    split; [|split].
    + simpl. unfold bind. by rewrite Hrun.
    + by rewrite Hh, Hh1, <- app_assoc.
    + constructor; [|done]. by repeat split.
Qed.

(** C6: when every run's state has an exchange and the normalization
    collaborator raises for none of the task's runs, [handleTask] returns, and
    the invocations of the collaborator it added are one per run, newest run
    (last list element) first; the message of each carries the exchange looked
    up from that run's state, the task's whole runs list, the task id and that
    run's runId, and comes with the task definition. *)
Theorem handleTask_newest_first (t : Task) (root : string) (w : World) :
  (forall run, run ∈ runs (status t) -> is_Some (stateToExchange !! state run)) ->
  (forall run exch, run ∈ runs (status t) -> stateToExchange !! state run = Some exch ->
     exists jobs, handleMessage (message_for t root run exch) (task t) = inr jobs) ->
  exists w' invocations,
    handleTask t root w = (Returned tt, w')
    /\ handled w' = handled w ++ invocations
    /\ Forall2 (invoked_for t root) (rev (runs (status t))) invocations.
Proof.
  intros Hstate Hok. unfold handleTask.
  apply handleTask_loop_classified.
  - intros run Hrun. apply Hstate.
    apply list_elem_of_In, (proj2 (in_rev _ _)). by apply list_elem_of_In.
  - intros run exch Hrun. apply Hok.
    apply list_elem_of_In, (proj2 (in_rev _ _)). by apply list_elem_of_In.
Qed.

(** A failure while classifying the newest run, the first one visited, leaves
    [taskRuns] unbound: the [if taskRuns:] that follows raises, and the older
    runs are never classified. *)
Lemma handleTask_newest_raises (t : Task) (root : string) (older : list Run) (newest : Run)
    (exch : string) (e : exn) (w : World) :
  runs (status t) = older ++ [newest] ->
  stateToExchange !! state newest = Some exch ->
  handleMessage (message_for t root newest exch) (task t) = inl e ->
  handleTask t root w =
    (Raised (UnboundLocalError "taskRuns"),
     w ++ [HandleMessage (message_for t root newest exch) (task t); Log (Exception e)]).
Proof.
  intros Hruns Hexch Hmsg. unfold handleTask. rewrite Hruns, rev_app_distr. simpl.
  unfold bind at 1. unfold handleTask_run, getitem. rewrite Hexch.
  unfold bind at 1. unfold ret at 1.
  unfold bind at 1. unfold try_except, bind at 1.
  rewrite Hmsg, call_raises. unfold logger_exception, bind, emit, ret, raise.
  by rewrite <- app_assoc.
Qed.

(** *** Listing a task group *)

(** The pages the endpoint serves from a query on: each page's token is the
    query of the next one, and the last page has none. *)
Inductive page_chain (root taskGroupId : string) : option string -> list ListResponse -> Prop :=
| chain_last query page :
    listTaskGroup root taskGroupId query = inr page ->
    continuationToken page = None ->
    page_chain root taskGroupId query [page]
| chain_next query page token rest :
    listTaskGroup root taskGroupId query = inr page ->
    continuationToken page = Some token ->
    page_chain root taskGroupId (Some token) rest ->
    page_chain root taskGroupId query (page :: rest).

(** The query the loop sends, from its locals [query] and [continuationToken]. *)
Definition query_sent (query : option string) (token : string) : option string :=
  if decide (token = EmptyString) then query else Some token.

Lemma fetchGroupTasks_loop_pages (root taskGroupId : string) (sent : option string)
    (pages : list ListResponse) :
  page_chain root taskGroupId sent pages ->
  Forall (fun page => continuationToken page <> Some EmptyString) pages ->
  forall fuel so_far query token w,
    query_sent query token = sent ->
    length pages <= fuel ->
    exists w',
      fetchGroupTasks_loop fuel taskGroupId root so_far query token w
      = (Returned (so_far ++ concat (map tasks pages)), w')
      /\ requested w' = requested w ++ sent :: map Some (omap continuationToken pages).
Proof.
  induction 1 as [sent page Hpage Hlast | sent page next rest Hpage Hnext Hrest IH];
    intros Hne fuel so_far query token w Hsent Hfuel.
  - destruct fuel as [|fuel]; [simpl in Hfuel; lia|]. simpl.
    fold (query_sent query token). rewrite Hsent.
    unfold bind at 1. rewrite Hpage, call_returns, Hlast.
    eexists. split.
    + unfold ret. by rewrite app_nil_r.
    + by rewrite requested_app.
  - destruct fuel as [|fuel]; [simpl in Hfuel; lia|]. simpl.
    fold (query_sent query token). rewrite Hsent.
    unfold bind at 1. rewrite Hpage, call_returns, Hnext.
    unfold bind at 1, logger_info, emit.
    apply Forall_cons in Hne as [Hpage_ne Hrest_ne].
    destruct (IH Hrest_ne fuel (so_far ++ tasks page) sent next
                ((w ++ [ListTaskGroup root taskGroupId sent]) ++
                 [Log (Info "Requesting more tasks. %s tasks so far..."
                         [ArgNat (length (so_far ++ tasks page))])]))
      as (w' & Hrun & Hreq).
    { unfold query_sent. destruct (decide (next = EmptyString)) as [->|]; [|done].
      by rewrite Hnext in Hpage_ne. }
    { simpl in Hfuel. lia. }
    exists w'. split.
    + rewrite Hrun. by rewrite <- app_assoc.
    + rewrite Hreq, !requested_app. simpl.
      by rewrite app_nil_r, <- app_assoc.
Qed.

(** C5, amended: when the listing endpoint serves a finite chain of pages
    linked by continuation tokens, none of which is the empty string, and
    ending in a page without a token, [fetchGroupTasks] (given fuel for as many
    requests as there are pages) returns the concatenation of the pages' task
    lists in page order, and it has sent exactly one request per page: the
    first without a token, each following one with the token of the page
    before. *)
Theorem fetchGroupTasks_follows_tokens (root taskGroupId : string)
    (pages : list ListResponse) (fuel : nat) (w : World) :
  page_chain root taskGroupId None pages ->
  Forall (fun page => continuationToken page <> Some EmptyString) pages ->
  length pages <= fuel ->
  exists w',
    fetchGroupTasks fuel taskGroupId root w = (Returned (concat (map tasks pages)), w')
    /\ requested w' = requested w ++ None :: map Some (omap continuationToken pages).
Proof.
  intros Hchain Hne Hfuel. unfold fetchGroupTasks.
  by apply (fetchGroupTasks_loop_pages root taskGroupId None pages Hchain Hne
              fuel [] None EmptyString w).
Qed.

(** When the listing raises, [processTasks] logs it and then reads the local
    [tasks], which was never bound. *)
Lemma processTasks_fetch_raises (fuel : nat) (taskGroupId root : string) (e : exn)
    (w w1 : World) :
  fetchGroupTasks fuel taskGroupId root w = (Raised e, w1) ->
  processTasks fuel taskGroupId root w =
    (Raised (UnboundLocalError "tasks"), w1 ++ [Log (Exception e)]).
Proof.
  intros Hfetch. unfold processTasks.
  unfold bind at 1. unfold try_except, bind at 1. by rewrite Hfetch.
Qed.

(** *** The inverse of the exchange map *)

Lemma stateToExchange_fold (items : list (string * string)) (d : gmap string string)
    (s : string) :
  foldl (fun d item => <[item.2 := item.1]> d) d items !! s =
  match last (filter (fun item => item.2 = s) items) with
  | Some item => Some item.1
  | None => d !! s
  end.
Proof.
  revert d. induction items as [|[key value] items IH]; intros d; simpl; [done|].
  rewrite IH. rewrite filter_cons. simpl.
  destruct (decide (value = s)) as [->|Hne].
  - rewrite last_cons.
    destruct (last (filter (fun item => item.2 = s) items)); [done|].
    by rewrite lookup_insert_eq.
  - destruct (last (filter (fun item => item.2 = s) items)); [done|].
    by rewrite lookup_insert_ne.
Qed.

(** C8, amended: building [stateToExchange] never fails, whatever the forward
    mapping; every state is mapped to the last exchange name, in the forward
    mapping's order, that maps to it (and to nothing when none does), so for
    a forward mapping that is not injective the earlier names are dropped
    without any error. *)
Theorem stateToExchange_last_wins (s : string) :
  import_stateToExchange = Returned stateToExchange
  /\ stateToExchange !! s =
       fst <$> last (filter (fun item => item.2 = s) EXCHANGE_EVENT_MAP).
Proof.
  split; [reflexivity|].
  unfold stateToExchange. rewrite stateToExchange_fold.
  by destruct (last (filter (fun item => item.2 = s) EXCHANGE_EVENT_MAP)).
Qed.

Lemma filter_state_absent (items : list (string * string)) (s : string) :
  s ∉ items.*2 -> filter (fun item : string * string => item.2 = s) items = [].
Proof.
  induction items as [|[k v] items IH]; intros Hs; [done|].
  rewrite filter_cons. simpl in *.
  apply not_elem_of_cons in Hs as [Hne Hs].
  destruct (decide (v = s)); [congruence|]. by apply IH.
Qed.

(** X23: for a forward mapping that is injective, the dict is its exact
    inverse: a state is looked up to an exchange exactly when the forward
    mapping sends that exchange to the state. *)
Lemma stateToExchange_inverse (key s : string) :
  NoDup (EXCHANGE_EVENT_MAP.*2) ->
  stateToExchange !! s = Some key <-> (key, s) ∈ EXCHANGE_EVENT_MAP.
Proof.
  intros Hinj. unfold stateToExchange. rewrite stateToExchange_fold, lookup_empty.
  induction EXCHANGE_EVENT_MAP as [|[k v] items IH]; simpl in *.
  - split; [done|]. by intros ?%elem_of_nil.
  - apply NoDup_cons in Hinj as [Hv Hinj]. rewrite filter_cons. simpl.
    destruct (decide (v = s)) as [->|Hne].
    + rewrite (filter_state_absent items s Hv). simpl. split.
      * intros [= ->]. left.
      * intros [[= ->]|Hin]%elem_of_cons; [done|].
        exfalso. apply Hv. apply list_elem_of_fmap. by exists (key, s).
    + rewrite IH by done. split.
      * intros Hin. by right.
      * intros [[= -> ->]|Hin]%elem_of_cons; [done|done].
Qed.

(** *** The comparison base of a push *)

Definition compare_address (meta : RepoMeta) (base head : string) : string :=
  GITHUB_API +:+ "/" +:+ compare_path meta base head.

(** The specification's words: a parent "itself has at least one parent" when
    the commit fetched at its url has a non-empty [parents] list. *)
Definition has_parents (parent : ParentRef) : bool :=
  match commit_json (parent_url parent) with
  | inr fetched_commit =>
      match parents fetched_commit with
      | [] => false
      | _ :: _ => true
      end
  | inl _ => false
  end.

(** The specification's corrected base: the sha of the first parent, in API
    order, that has a parent, and the repository branch when there is none. *)
Definition corrected_base (meta : RepoMeta) (mergeBaseCommit : Commit) : string :=
  match List.find has_parents (parents mergeBaseCommit) with
  | Some parent => parent_sha parent
  | None => branch meta
  end.

(** The parents looked at: those in front of the first one that has a parent,
    and that one. *)
Fixpoint inspected (todo : list ParentRef) : list ParentRef :=
  match todo with
  | [] => []
  | parent :: rest => if has_parents parent then [parent] else parent :: inspected rest
  end.

Lemma query_data_parents_first (todo : list ParentRef) (eventBaseSha : string) (w : World) :
  (forall parent, parent ∈ todo -> exists c, commit_json (parent_url parent) = inr c) ->
  exists w',
    query_data_parents todo eventBaseSha w =
      (Returned (match List.find has_parents todo with
                 | Some parent => parent_sha parent
                 | None => eventBaseSha
                 end), w')
    /\ fetched w' = fetched w ++ map parent_url (inspected todo).
Proof.
  revert w. induction todo as [|parent rest IH]; intros w Hok; simpl.
  - exists w. split; [done|]. by rewrite app_nil_r.
  - destruct (Hok parent) as [c Hc]; [left|].
    unfold bind at 1, fetch_json. rewrite Hc, call_returns.
    unfold has_parents. rewrite Hc.
    destruct (parents c) as [|grandparent others].
    + destruct (IH (w ++ [FetchJson (parent_url parent)])) as (w' & Hrun & Hf).
      { intros p Hp. apply Hok. by right. }
      exists w'. split; [done|].
      rewrite Hf, fetched_app. simpl. by rewrite <- app_assoc.
    + eexists. split; [reflexivity|].
      rewrite !fetched_app. simpl. by rewrite app_nil_r.
Qed.

(** C7: when the first comparison answers with a [merge_base_commit] (and the
    requests succeed), [query_data] fetches that commit's parents in API
    order up to the first one that itself has a parent, returns that parent's
    sha as the comparison base (the repository branch when no parent has
    one), and the commits it returns are those of a second comparison made
    with that base. *)
Theorem query_data_corrects_base (meta : RepoMeta) (head : string)
    (first second : CompareResponse) (mergeBaseCommit : Commit) (w : World) :
  compare_json (compare_address meta (branch meta) head) = inr first ->
  merge_base_commit first = Some mergeBaseCommit ->
  (forall parent, parent ∈ parents mergeBaseCommit ->
     exists c, commit_json (parent_url parent) = inr c) ->
  compare_json (compare_address meta (corrected_base meta mergeBaseCommit) head)
    = inr second ->
  exists w',
    query_data meta head w =
      (Returned (corrected_base meta mergeBaseCommit, map push_commit (commits second)), w')
    /\ fetched w' =
         fetched w
         ++ [compare_address meta (branch meta) head]
         ++ map parent_url (inspected (parents mergeBaseCommit))
         ++ [compare_address meta (corrected_base meta mergeBaseCommit) head].
Proof.
  intros Hfirst Hmerge Hparents Hsecond.
  unfold query_data, compareUrl, fetchApi, fetch_json.
  fold (compare_address meta (branch meta) head).
  unfold bind at 1. rewrite Hfirst, call_returns, Hmerge.
  unfold bind at 1. unfold bind at 1. unfold logger_info, emit.
  unfold bind at 1.
  destruct (query_data_parents_first (parents mergeBaseCommit) (branch meta)
              ((w ++ [FetchJson (compare_address meta (branch meta) head)]) ++
               [Log (Info "We have a merge commit. We need to find the right eventBaseSha" [])])
              Hparents) as (w1 & Hrun & Hf).
  rewrite Hrun. fold (corrected_base meta mergeBaseCommit).
  fold (compare_address meta (corrected_base meta mergeBaseCommit) head).
  unfold bind at 1. rewrite Hsecond, call_returns.
  eexists. split; [reflexivity|].
  rewrite fetched_app, Hf, !fetched_app. simpl.
  by rewrite app_nil_r, <- !app_assoc.
Qed.

(** *** Ingesting a git push *)

(** A computation that only adds events, none of them a [Repository] query. *)
Definition no_query {A} (c : M A) : Prop :=
  forall w, exists evs, (c w).2 = w ++ evs /\ queried evs = [].

Lemma no_query_ret {A} (a : A) : no_query (ret a).
Proof. intros w. exists []. by rewrite app_nil_r. Qed.

Lemma no_query_raise {A} (e : exn) : no_query (raise (A := A) e).
Proof. intros w. exists []. by rewrite app_nil_r. Qed.

Lemma no_query_bind {A B} (c : M A) (k : A -> M B) :
  no_query c -> (forall a, no_query (k a)) -> no_query (bind c k).
Proof.
  intros Hc Hk w. unfold bind. destruct (Hc w) as (evs & Hw & Hq).
  destruct (c w) as [[a|e|] w1]; simpl in *; subst; [|by exists evs..].
  destruct (Hk a (w ++ evs)) as (evs' & -> & Hq').
  exists (evs ++ evs'). split; [by rewrite app_assoc|].
  by rewrite queried_app, Hq, Hq'.
Qed.

Lemma no_query_call {A} (ev : Event) (answer : exn + A) :
  queried [ev] = [] -> no_query (call ev answer).
Proof.
  intros Hev w. exists [ev]. split; [|done].
  unfold call, bind, emit. by destruct answer.
Qed.

Lemma no_query_info (fmt : string) (args : list LogArg) : no_query (logger_info fmt args).
Proof. intros w. by exists [Log (Info fmt args)]. Qed.

Lemma queried_no_query {A} (c : M A) (w : World) :
  no_query c -> queried (c w).2 = queried w.
Proof.
  intros Hc. destruct (Hc w) as (evs & -> & Hq).
  by rewrite queried_app, Hq, app_nil_r.
Qed.

Lemma no_query_index {A} (l : list A) (i : nat) : no_query (index l i).
Proof. unfold index. destruct (l !! i); [apply no_query_ret|apply no_query_raise]. Qed.

Lemma no_query_parents (todo : list ParentRef) (eventBaseSha : string) :
  no_query (query_data_parents todo eventBaseSha).
Proof.
  induction todo as [|parent rest IH]; simpl; [apply no_query_ret|].
  apply no_query_bind; [by apply no_query_call|].
  intros c. destruct (parents c); [done|].
  apply no_query_bind; [apply no_query_info|]. intros _. apply no_query_ret.
Qed.

Lemma no_query_pulse (meta : RepoMeta) (head : string) :
  no_query (github_push_to_pulse meta head).
Proof.
  unfold github_push_to_pulse, query_data, compareUrl, fetchApi, fetch_json.
  repeat first
    [ apply no_query_ret
    | apply no_query_parents
    | apply no_query_info
    | apply no_query_call; reflexivity
    | apply no_query_bind; [|intros ?]
    | match goal with |- no_query (match ?x with _ => _ end) => destruct x end ].
Qed.

(** C9: [ingestGitPush] does not depend on its [project] argument: it does
    the same for any two projects, and the one repository it looks up, whatever
    the project, is the one named "fenix". *)
Theorem ingestGitPush_ignores_project (project other : string) (c : Commit) (w : World) :
  ingestGitPush project c w = ingestGitPush other c w
  /\ queried (ingestGitPush project c w).2 = queried w ++ ["fenix"].
Proof.
  split; [reflexivity|].
  unfold ingestGitPush, repo_meta.
  rewrite bind_assoc. unfold bind at 1, emit.
  rewrite queried_no_query.
  - rewrite queried_app. reflexivity.
  - repeat first
      [ apply no_query_ret
      | apply no_query_index
      | apply no_query_pulse
      | apply no_query_call; reflexivity
      | apply no_query_bind; [|intros ?] ].
Qed.

(** *** More about loading the jobs of a run *)

(** Whether a collaborator's answer is an exception. *)
Definition raised {A} (answer : exn + A) : bool :=
  match answer with
  | inl _ => true
  | inr _ => false
  end.

(** The jobs of a batch whose loading raises. *)
Definition failing_loads (root : string) (jobs : list Job) : list Job :=
  filter (fun job => raised (process_job job root) = true) jobs.

Lemma failing_loads_cons (root : string) (job : Job) (jobs : list Job) :
  failing_loads root (job :: jobs) =
  match process_job job root with
  | inl _ => job :: failing_loads root jobs
  | inr _ => failing_loads root jobs
  end.
Proof.
  unfold failing_loads. rewrite filter_cons.
  by destruct (process_job job root) as [e|u]; case_decide.
Qed.

Lemma failing_loads_app (root : string) (jobs1 jobs2 : list Job) :
  failing_loads root (jobs1 ++ jobs2) = failing_loads root jobs1 ++ failing_loads root jobs2.
Proof. apply filter_app. Qed.

(** What awaiting the job units of one run does: every job is handed to the
    loader, in order, and each load that raises leaves one slot held. *)
Lemma await_jobs_effects (jobs : list Job) (root : string) (w : World) :
  exists w',
    await_futures
      (map (fun job => routine_to_future process_job_with_threads job root) jobs) w
    = (Returned tt, w')
    /\ handled w' = handled w
    /\ loaded w' = loaded w ++ map (fun job => (job, root)) jobs
    /\ slots_held w' = (slots_held w + Z.of_nat (length (failing_loads root jobs)))%Z.
Proof.
  revert w. induction jobs as [|job jobs IH]; intros w; simpl map.
  - exists w. rewrite app_nil_r. repeat split; simpl; lia.
  - rewrite await_futures_step.
    + destruct (IH (isolated (routine_to_future process_job_with_threads job root) w))
        as (w' & -> & Hh & Hl & Hs).
      exists w'. split; [done|]. rewrite Hh, Hl, Hs, failing_loads_cons.
      unfold isolated, routine_to_future. rewrite process_job_with_threads_runs.
      destruct (process_job job root);
        rewrite ?handled_app, ?loaded_app, ?slots_held_app; simpl;
        rewrite ?app_nil_r, <- ?app_assoc; repeat split; simpl; lia.
    + unfold routine_to_future. rewrite process_job_with_threads_runs.
      by destruct (process_job job root).
Qed.

Lemma handleTask_run_effects (t : Task) (root : string) (run : Run) (exch : string)
    (jobs : list Job) (taskRuns : option (list Job)) (w : World) :
  stateToExchange !! state run = Some exch ->
  handleMessage (message_for t root run exch) (task t) = inr jobs ->
  exists w',
    handleTask_run t root run taskRuns w = (Returned (Some jobs), w')
    /\ loaded w' = loaded w ++ map (fun job => (job, root)) jobs
    /\ slots_held w' = (slots_held w + Z.of_nat (length (failing_loads root jobs)))%Z.
Proof.
  intros Hexch Hmsg.
  unfold handleTask_run, getitem. rewrite Hexch.
  unfold bind at 1. unfold ret at 1.
  unfold bind at 1. unfold try_except, bind at 1.
  rewrite Hmsg, call_returns. unfold ret at 1.
  destruct jobs as [|job jobs].
  - eexists. split; [reflexivity|].
    rewrite loaded_app, slots_held_app. simpl. rewrite !app_nil_r. split; [done|lia].
  - unfold bind.
    destruct (await_jobs_effects (job :: jobs) root
                (w ++ [HandleMessage (message_for t root run exch) (task t)]))
      as (w' & -> & _ & Hl & Hs).
    exists w'. split; [reflexivity|].
    rewrite Hl, Hs, loaded_app, slots_held_app. simpl. rewrite app_nil_r.
    split; [done|lia].
Qed.

(** The jobs the collaborator returns for a run (none when the run's state has
    no exchange or the collaborator raises). *)
Definition jobs_for (t : Task) (root : string) (run : Run) : list Job :=
  match stateToExchange !! state run with
  | Some exch =>
      match handleMessage (message_for t root run exch) (task t) with
      | inr jobs => jobs
      | inl _ => []
      end
  | None => []
  end.

Lemma handleTask_loop_effects (t : Task) (root : string) (todo : list Run)
    (taskRuns : option (list Job)) (w : World) :
  (forall run, run ∈ todo -> is_Some (stateToExchange !! state run)) ->
  (forall run exch, run ∈ todo -> stateToExchange !! state run = Some exch ->
     exists jobs, handleMessage (message_for t root run exch) (task t) = inr jobs) ->
  exists w',
    handleTask_loop t root todo taskRuns w = (Returned tt, w')
    /\ loaded w' =
         loaded w ++ map (fun job => (job, root)) (concat (map (jobs_for t root) todo))
    /\ slots_held w' =
         (slots_held w
          + Z.of_nat (length (failing_loads root (concat (map (jobs_for t root) todo)))))%Z.
Proof.
  revert taskRuns w. induction todo as [|run rest IH]; intros taskRuns w Hstate Hok.
  - exists w. simpl. rewrite app_nil_r. split; [done|]. split; [done|lia].
  - destruct (Hstate run) as [exch Hexch]; [left|].
    destruct (Hok run exch) as [jobs Hjobs]; [left|done|].
    destruct (handleTask_run_effects t root run exch jobs taskRuns w Hexch Hjobs)
      as (w1 & Hrun & Hl1 & Hs1).
    destruct (IH (Some jobs) w1) as (w' & Hloop & Hl & Hs).
    { intros r Hr. apply Hstate. by right. }
    { intros r e Hr. apply Hok. by right. }
    exists w'. split; [|split].
    + simpl. unfold bind. by rewrite Hrun.
    + rewrite Hl, Hl1. simpl. unfold jobs_for at 2. rewrite Hexch, Hjobs.
      by rewrite map_app, app_assoc.
    + rewrite Hs, Hs1. simpl. unfold jobs_for at 2. rewrite Hexch, Hjobs.
      rewrite failing_loads_app, length_app. lia.
Qed.

(** X1: when every run's state has an exchange and the collaborator raises
    for no run, [handleTask] hands to the job loader exactly the jobs the
    collaborator returned, run by run from the newest, each with the root url,
    whether or not the loader raises for some of them. *)
Theorem handleTask_loads_every_job (t : Task) (root : string) (w : World) :
  (forall run, run ∈ runs (status t) -> is_Some (stateToExchange !! state run)) ->
  (forall run exch, run ∈ runs (status t) -> stateToExchange !! state run = Some exch ->
     exists jobs, handleMessage (message_for t root run exch) (task t) = inr jobs) ->
  exists w',
    handleTask t root w = (Returned tt, w')
    /\ loaded w' =
         loaded w
         ++ map (fun job => (job, root))
                (concat (map (jobs_for t root) (rev (runs (status t))))).
Proof.
  intros Hstate Hok.
  destruct (handleTask_loop_effects t root (rev (runs (status t))) None w)
    as (w' & Hrun & Hl & _).
  - intros run Hrun. apply Hstate.
    apply list_elem_of_In, (proj2 (in_rev _ _)). by apply list_elem_of_In.
  - intros run exch Hrun. apply Hok.
    apply list_elem_of_In, (proj2 (in_rev _ _)). by apply list_elem_of_In.
  - by exists w'.
Qed.

(** X2: under the same conditions, the connection slots [handleTask] leaves
    held are as many as the jobs whose loading raised: none when the loader
    never raises, one more for every load that does. *)
Theorem handleTask_slots_leaked (t : Task) (root : string) (w : World) :
  (forall run, run ∈ runs (status t) -> is_Some (stateToExchange !! state run)) ->
  (forall run exch, run ∈ runs (status t) -> stateToExchange !! state run = Some exch ->
     exists jobs, handleMessage (message_for t root run exch) (task t) = inr jobs) ->
  slots_held (handleTask t root w).2 =
    (slots_held w
     + Z.of_nat (length (failing_loads root
                           (concat (map (jobs_for t root) (rev (runs (status t))))))))%Z.
Proof.
  intros Hstate Hok.
  destruct (handleTask_loop_effects t root (rev (runs (status t))) None w)
    as (w' & Hrun & _ & Hs).
  - intros run Hrun. apply Hstate.
    apply list_elem_of_In, (proj2 (in_rev _ _)). by apply list_elem_of_In.
  - intros run exch Hrun. apply Hok.
    apply list_elem_of_In, (proj2 (in_rev _ _)). by apply list_elem_of_In.
  - unfold handleTask. by rewrite Hrun.
Qed.

(** *** A run whose state has no exchange *)

Lemma handleTask_loop_unmapped (t : Task) (root : string) (good : list Run) (bad : Run)
    (rest : list Run) (taskRuns : option (list Job)) (w : World) :
  (forall run, run ∈ good -> is_Some (stateToExchange !! state run)) ->
  (forall run exch, run ∈ good -> stateToExchange !! state run = Some exch ->
     exists jobs, handleMessage (message_for t root run exch) (task t) = inr jobs) ->
  stateToExchange !! state bad = None ->
  exists w' invocations,
    handleTask_loop t root (good ++ bad :: rest) taskRuns w
    = (Raised (KeyError (state bad)), w')
    /\ handled w' = handled w ++ invocations
    /\ Forall2 (invoked_for t root) good invocations.
Proof.
  revert taskRuns w. induction good as [|run good IH]; intros taskRuns w Hstate Hok Hbad.
  - exists w, []. simpl. unfold bind, handleTask_run, getitem. rewrite Hbad.
    split; [done|]. split; [by rewrite app_nil_r|constructor].
  - destruct (Hstate run) as [exch Hexch]; [left|].
    destruct (Hok run exch) as [jobs Hjobs]; [left|done|].
    destruct (handleTask_run_classified t root run exch jobs taskRuns w Hexch Hjobs)
      as (w1 & Hrun & Hh1).
    destruct (IH (Some jobs) w1) as (w' & invocations & Hloop & Hh & Hall); [| |done|].
    { intros r Hr. apply Hstate. by right. }
    { intros r e Hr. apply Hok. by right. }
    exists w', ((message_for t root run exch, task t) :: invocations).
    split; [|split].
    + simpl. unfold bind. rewrite Hrun. exact Hloop.
    + by rewrite Hh, Hh1, <- app_assoc.
    + constructor; [|done]. by repeat split.
Qed.

(** X3: the exchange of a run is looked up outside the [try]: when a run's
    state has no exchange, [handleTask] raises [KeyError] for that state. The
    runs newer than it have been classified by then (given that they can be),
    the run itself and all older runs are never handed to the collaborator. *)
Theorem handleTask_unmapped_state (t : Task) (root : string) (older newer : list Run)
    (bad : Run) (w : World) :
  runs (status t) = older ++ bad :: newer ->
  stateToExchange !! state bad = None ->
  (forall run, run ∈ newer -> is_Some (stateToExchange !! state run)) ->
  (forall run exch, run ∈ newer -> stateToExchange !! state run = Some exch ->
     exists jobs, handleMessage (message_for t root run exch) (task t) = inr jobs) ->
  exists w' invocations,
    handleTask t root w = (Raised (KeyError (state bad)), w')
    /\ handled w' = handled w ++ invocations
    /\ Forall2 (invoked_for t root) (rev newer) invocations.
Proof.
  intros Hruns Hbad Hstate Hok. unfold handleTask.
  rewrite Hruns, rev_app_distr. simpl. rewrite <- app_assoc. simpl.
  apply handleTask_loop_unmapped; [| |done].
  - intros run Hrun. apply Hstate.
    apply list_elem_of_In, (proj2 (in_rev _ _)). by apply list_elem_of_In.
  - intros run exch Hrun. apply Hok.
    apply list_elem_of_In, (proj2 (in_rev _ _)). by apply list_elem_of_In.
Qed.

(** *** A batch of tasks *)

Lemma handleTask_run_terminates (t : Task) (root : string) (run : Run)
    (taskRuns : option (list Job)) (w : World) :
  (handleTask_run t root run taskRuns w).1 <> Diverged.
Proof.
  unfold handleTask_run, getitem.
  destruct (stateToExchange !! state run) as [exch|]; [|done].
  unfold bind at 1. unfold ret at 1.
  unfold bind at 1. unfold try_except, bind at 1.
  destruct (handleMessage (message_for t root run exch) (task t)) as [e|jobs].
  - rewrite call_raises. unfold logger_exception, bind at 1, emit. unfold ret at 1.
    destruct taskRuns as [[|job jobs]|]; [done| |done].
    unfold bind.
    by destruct (await_jobs_returns (job :: jobs) root
                   ((w ++ [HandleMessage (message_for t root run exch) (task t)])
                    ++ [Log (Exception e)])) as (w' & -> & _).
  - rewrite call_returns. unfold ret at 1.
    destruct jobs as [|job jobs]; [done|].
    unfold bind.
    by destruct (await_jobs_returns (job :: jobs) root
                   (w ++ [HandleMessage (message_for t root run exch) (task t)]))
      as (w' & -> & _).
Qed.

Lemma handleTask_loop_terminates (t : Task) (root : string) (todo : list Run)
    (taskRuns : option (list Job)) (w : World) :
  (handleTask_loop t root todo taskRuns w).1 <> Diverged.
Proof.
  revert taskRuns w. induction todo as [|run rest IH]; intros taskRuns w; [done|].
  simpl. unfold bind.
  pose proof (handleTask_run_terminates t root run taskRuns w) as Hrun.
  destruct (handleTask_run t root run taskRuns w) as [[next|e|] w1]; [apply IH|done|done].
Qed.

Lemma await_futures_returns (fs : list (M unit)) (w : World) :
  (forall fut w0, fut ∈ fs -> (fut w0).1 <> Diverged) ->
  exists w', await_futures fs w = (Returned tt, w').
Proof.
  revert w. induction fs as [|fut rest IH]; intros w Hterm.
  - by exists w.
  - rewrite await_futures_step by (apply Hterm; left).
    apply IH. intros fut' w0 Hin. apply Hterm. by right.
Qed.

(** X4: once the listing has succeeded, [processTasks] returns normally,
    whatever the tasks are and whatever the normalization collaborator and the
    job loader do for them: no failure inside a task reaches the caller. *)
Theorem processTasks_returns_after_listing (fuel : nat) (taskGroupId root : string)
    (batch : list Task) (w w1 : World) :
  fetchGroupTasks fuel taskGroupId root w = (Returned batch, w1) ->
  exists w', processTasks fuel taskGroupId root w = (Returned tt, w').
Proof.
  intros Hfetch. unfold processTasks.
  unfold bind at 1. unfold try_except, bind at 1. rewrite Hfetch.
  unfold bind at 1, logger_info, emit. unfold ret at 1.
  destruct batch as [|t batch]; [by eexists|].
  apply await_futures_returns.
  intros fut w0 Hin. apply list_elem_of_fmap in Hin as (t' & -> & _).
  apply handleTask_loop_terminates.
Qed.

(** *** A listing that fails or never ends *)

(** The pages served before a request raises: each page's token, which is not
    empty, is the query of the next request, and the last request raises. *)
Inductive failing_chain (root taskGroupId : string) (e : exn)
  : option string -> list ListResponse -> Prop :=
| fails_now query :
    listTaskGroup root taskGroupId query = inl e ->
    failing_chain root taskGroupId e query []
| fails_later query page token rest :
    listTaskGroup root taskGroupId query = inr page ->
    continuationToken page = Some token ->
    token <> EmptyString ->
    failing_chain root taskGroupId e (Some token) rest ->
    failing_chain root taskGroupId e query (page :: rest).

Lemma fetchGroupTasks_loop_fails (root taskGroupId : string) (e : exn)
    (sent : option string) (pages : list ListResponse) :
  failing_chain root taskGroupId e sent pages ->
  forall fuel so_far query token w,
    query_sent query token = sent ->
    length pages < fuel ->
    exists w',
      fetchGroupTasks_loop fuel taskGroupId root so_far query token w = (Raised e, w')
      /\ requested w' = requested w ++ sent :: map Some (omap continuationToken pages).
Proof.
  induction 1 as [sent Hfail | sent page next rest Hpage Hnext Hne Hrest IH];
    intros fuel so_far query token w Hsent Hfuel.
  - destruct fuel as [|fuel]; [simpl in Hfuel; lia|]. simpl.
    fold (query_sent query token). rewrite Hsent.
    unfold bind at 1. rewrite Hfail, call_raises.
    eexists. split; [reflexivity|]. by rewrite requested_app.
  - destruct fuel as [|fuel]; [simpl in Hfuel; lia|]. simpl.
    fold (query_sent query token). rewrite Hsent.
    unfold bind at 1. rewrite Hpage, call_returns, Hnext.
    unfold bind at 1, logger_info, emit.
    destruct (IH fuel (so_far ++ tasks page) sent next
                ((w ++ [ListTaskGroup root taskGroupId sent]) ++
                 [Log (Info "Requesting more tasks. %s tasks so far..."
                         [ArgNat (length (so_far ++ tasks page))])]))
      as (w' & Hrun & Hreq).
    { unfold query_sent. by destruct (decide (next = EmptyString)). }
    { simpl in Hfuel. lia. }
    exists w'. split; [exact Hrun|].
    rewrite Hreq, !requested_app. simpl.
    by rewrite app_nil_r, <- app_assoc.
Qed.

(** X5: when a listing request raises, on the first page or after any number
    of pages, [fetchGroupTasks] raises that exception: the tasks of the pages
    it had fetched are not returned. *)
Theorem fetchGroupTasks_request_fails (root taskGroupId : string) (e : exn)
    (pages : list ListResponse) (fuel : nat) (w : World) :
  failing_chain root taskGroupId e None pages ->
  length pages < fuel ->
  exists w',
    fetchGroupTasks fuel taskGroupId root w = (Raised e, w')
    /\ requested w' = requested w ++ None :: map Some (omap continuationToken pages).
Proof.
  intros Hchain Hfuel. unfold fetchGroupTasks.
  by apply (fetchGroupTasks_loop_fails root taskGroupId e None pages Hchain
              fuel [] None EmptyString w).
Qed.

Lemma fetchGroupTasks_loop_same_page (root taskGroupId : string) (query : option string)
    (page : ListResponse) :
  listTaskGroup root taskGroupId query = inr page ->
  continuationToken page = Some EmptyString ->
  forall fuel so_far w,
    (fetchGroupTasks_loop fuel taskGroupId root so_far query EmptyString w).1 = Diverged.
Proof.
  intros Hpage Hempty. induction fuel as [|fuel IH]; intros so_far w; [reflexivity|].
  simpl. unfold bind at 1. rewrite Hpage, call_returns, Hempty.
  unfold bind at 1, logger_info, emit. apply IH.
Qed.

(** A walk of the listing that comes to a page whose token is the empty
    string, through pages whose tokens are not empty. *)
Inductive reaches_empty_token (root taskGroupId : string) : option string -> Prop :=
| empty_here query page :
    listTaskGroup root taskGroupId query = inr page ->
    continuationToken page = Some EmptyString ->
    reaches_empty_token root taskGroupId query
| empty_later query page token :
    listTaskGroup root taskGroupId query = inr page ->
    continuationToken page = Some token ->
    token <> EmptyString ->
    reaches_empty_token root taskGroupId (Some token) ->
    reaches_empty_token root taskGroupId query.

Lemma fetchGroupTasks_loop_never_ends (root taskGroupId : string) (sent : option string) :
  reaches_empty_token root taskGroupId sent ->
  forall fuel so_far query token w,
    query_sent query token = sent ->
    (fetchGroupTasks_loop fuel taskGroupId root so_far query token w).1 = Diverged.
Proof.
  induction 1 as [sent page Hpage Hempty | sent page next Hpage Hnext Hne Hrest IH];
    intros fuel so_far query token w Hsent.
  - destruct fuel as [|fuel]; [reflexivity|]. simpl.
    fold (query_sent query token). rewrite Hsent.
    unfold bind at 1. rewrite Hpage, call_returns, Hempty.
    unfold bind at 1, logger_info, emit.
    by apply (fetchGroupTasks_loop_same_page root taskGroupId sent page).
  - destruct fuel as [|fuel]; [reflexivity|]. simpl.
    fold (query_sent query token). rewrite Hsent.
    unfold bind at 1. rewrite Hpage, call_returns, Hnext.
    unfold bind at 1, logger_info, emit.
    apply IH. unfold query_sent. by destruct (decide (next = EmptyString)).
Qed.

(** X6: when the walk of a listing comes to a page that carries the empty
    string as its continuation token, [fetchGroupTasks] never returns: the
    empty token is not sent, the same page is requested again and again, and
    no amount of fuel lets the loop end. *)
Theorem fetchGroupTasks_empty_token_never_ends (root taskGroupId : string)
    (fuel : nat) (w : World) :
  reaches_empty_token root taskGroupId None ->
  (fetchGroupTasks fuel taskGroupId root w).1 = Diverged.
Proof.
  intros Hwalk. unfold fetchGroupTasks.
  by apply (fetchGroupTasks_loop_never_ends root taskGroupId None Hwalk).
Qed.

(** *** Looking up a repository *)

Lemma filter_name_absent (project : string) (rows : list Repository) :
  (forall r, r ∈ rows -> repo_name r <> project) ->
  filter (fun r => repo_name r = project) rows = [].
Proof.
  induction rows as [|r rows IH]; intros Hnone; [done|].
  rewrite filter_cons. case_decide as Hr.
  - exfalso. by apply (Hnone r); [left|].
  - apply IH. intros r' Hr'. apply Hnone. by right.
Qed.

Lemma filter_name_first (project : string) (before after : list Repository)
    (row : Repository) :
  (forall r, r ∈ before -> repo_name r <> project) ->
  repo_name row = project ->
  filter (fun r => repo_name r = project) (before ++ row :: after) !! 0 = Some row.
Proof.
  intros Hnone Hrow. rewrite filter_app, (filter_name_absent project before Hnone).
  simpl. rewrite filter_cons. by case_decide.
Qed.

(** X7: for a project that no row of the repository table is named after,
    [repo_meta] raises [IndexError] at the index [[0]]: the [assert] that
    follows, with its message about an incorrect project, is never reached. *)
Theorem repo_meta_unknown_project (project : string) (w : World) :
  (forall r, r ∈ Repository_objects -> repo_name r <> project) ->
  repo_meta project w = (Raised IndexError, w ++ [RepositoryFilter project]).
Proof.
  intros Hnone. unfold repo_meta, bind, emit, index.
  by rewrite (filter_name_absent project Repository_objects Hnone).
Qed.

(** X8: [repo_meta] answers from the first row named after the project. For
    a url of the form scheme//host/owner/rest the owner is the third path
    piece and the repo is what comes after it up to the next slash; url, branch
    and tc_root_url are the row's. *)
Theorem repo_meta_url_pieces (project : string) (before after : list Repository)
    (row : Repository) (scheme host the_owner rest : string) (w : World) :
  Repository_objects = before ++ row :: after ->
  (forall r, r ∈ before -> repo_name r <> project) ->
  repo_name row = project ->
  repo_url row = scheme +:+ "//" +:+ host +:+ "/" +:+ the_owner +:+ "/" +:+ rest ->
  PyStr.contains "/" scheme = false ->
  PyStr.contains "/" host = false ->
  PyStr.contains "/" the_owner = false ->
  repo_meta project w =
    (Returned {| url := repo_url row;
                 branch := repo_branch row;
                 owner := the_owner;
                 repo := PyStr.prefix_before "/" rest;
                 tc_root_url := repo_tc_root_url row |},
     w ++ [RepositoryFilter project]).
Proof.
  intros Hrows Hnone Hrow Hurl Hscheme Hhost Howner.
  unfold repo_meta. unfold bind at 1, emit.
  unfold bind at 1, index at 1.
  rewrite Hrows, (filter_name_first project before after row Hnone Hrow).
  unfold ret at 1. rewrite Hurl.
  change ("//" +:+ host +:+ "/" +:+ the_owner +:+ "/" +:+ rest)
    with (String "/" (String "/" (host +:+ String "/" (the_owner +:+ String "/" rest)))).
  rewrite (PyStr.split_app_sep _ scheme) by done.
  rewrite PyStr.split_sep_first.
  rewrite (PyStr.split_app_sep _ host) by done.
  rewrite (PyStr.split_app_sep _ the_owner) by done.
  destruct (PyStr.split_head "/" None rest eq_refl) as [pieces ->].
  reflexivity.
Qed.

(** X9: for the first row named after the project, [repo_meta] raises
    [IndexError] exactly when the row's url has fewer than four slashes, the
    pieces [[3]] and [[4]] of the split being then missing. *)
Theorem repo_meta_short_url (project : string) (before after : list Repository)
    (row : Repository) (w : World) :
  Repository_objects = before ++ row :: after ->
  (forall r, r ∈ before -> repo_name r <> project) ->
  repo_name row = project ->
  (repo_meta project w).1 = Raised IndexError <-> PyStr.count "/" (repo_url row) < 4.
Proof.
  intros Hrows Hnone Hrow.
  unfold repo_meta. unfold bind at 1, emit.
  unfold bind at 1, index at 1.
  rewrite Hrows, (filter_name_first project before after row Hnone Hrow).
  unfold ret at 1.
  pose proof (PyStr.split_length "/" (repo_url row)) as Hlen.
  destruct (PyStr.split "/" None (repo_url row)) as [|p0 [|p1 [|p2 [|p3 [|p4 pieces]]]]];
    simpl in Hlen; unfold bind, index; simpl; split; intros H; try done; lia.
Qed.

(** *** A push without a merge base *)

Lemma query_data_no_merge_base (meta : RepoMeta) (head : string) (response : CompareResponse)
    (w : World) :
  compare_json (compare_address meta (branch meta) head) = inr response ->
  merge_base_commit response = None ->
  query_data meta head w =
    (Returned (branch meta, map push_commit (commits response)),
     w ++ [FetchJson (compare_address meta (branch meta) head)]).
Proof.
  intros Hresponse Hnone.
  unfold query_data, compareUrl, fetchApi, fetch_json.
  fold (compare_address meta (branch meta) head).
  unfold bind at 1. rewrite Hresponse, call_returns, Hnone. reflexivity.
Qed.

(** The payload [github_push_to_pulse] builds from a base and the commits. *)
Definition push_payload_of (meta : RepoMeta) (head base : string) (pushed : list PushCommit)
  : PushPayload :=
  {| organization := owner meta;
     details := {| event_head_repo_url := url meta +:+ ".git";
                   event_base_repo_branch := branch meta;
                   event_base_sha := base;
                   event_head_sha := head |};
     body_commits := pushed;
     repository := repo meta |}.

(** X10: the whole of [ingestGitPush] on a commit whose comparison has no
    merge base. With the metadata [repo_meta "fenix"] returns, it makes one
    comparison, from the repository branch to the commit, and hands the push
    loader one event: organization and repository are the url's owner and
    repo, the base sha is the branch name itself, the commits are those of
    the comparison in its order, and the root url is the repository's. What
    the loader raises is raised by [ingestGitPush]. *)
Theorem ingestGitPush_no_merge_base (project : string) (c : Commit) (meta : RepoMeta)
    (response : CompareResponse) (w w1 : World) :
  repo_meta "fenix" w = (Returned meta, w1) ->
  compare_json (compare_address meta (branch meta) (sha c)) = inr response ->
  merge_base_commit response = None ->
  ingestGitPush project c w =
    (match PushLoader_process
             (push_payload_of meta (sha c) (branch meta) (map push_commit (commits response)))
             "exchange/taskcluster-github/v1/push" (tc_root_url meta) with
     | inr _ => Returned tt
     | inl e => Raised e
     end,
     w1 ++ [FetchJson (compare_address meta (branch meta) (sha c));
            PushProcess
              (push_payload_of meta (sha c) (branch meta) (map push_commit (commits response)))
              "exchange/taskcluster-github/v1/push" (tc_root_url meta)]).
Proof.
  intros Hmeta Hresponse Hnone.
  unfold ingestGitPush. unfold bind at 1. rewrite Hmeta.
  unfold bind at 1, github_push_to_pulse. unfold bind at 1.
  rewrite (query_data_no_merge_base meta (sha c) response w1 Hresponse Hnone).
  unfold ret at 1. simpl.
  fold (push_payload_of meta (sha c) (branch meta) (map push_commit (commits response))).
  destruct (PushLoader_process _ _ _) as [e|[]].
  - rewrite call_raises. by rewrite <- app_assoc.
  - rewrite call_returns. by rewrite <- app_assoc.
Qed.

(** *** What a push ingestion hands to the loader *)

(** A computation that terminates and only adds events that satisfy [P]. *)
Definition adds {A} (P : Event -> Prop) (c : M A) : Prop :=
  forall w, exists evs, (c w).2 = w ++ evs /\ Forall P evs /\ (c w).1 <> Diverged.

Lemma adds_ret {A} (P : Event -> Prop) (a : A) : adds P (ret a).
Proof. intros w. exists []. by rewrite app_nil_r. Qed.

Lemma adds_raise {A} (P : Event -> Prop) (e : exn) : adds P (raise (A := A) e).
Proof. intros w. exists []. by rewrite app_nil_r. Qed.

Lemma adds_bind {A B} (P : Event -> Prop) (c : M A) (k : A -> M B) :
  adds P c -> (forall a, adds P (k a)) -> adds P (bind c k).
Proof.
  intros Hc Hk w. unfold bind. destruct (Hc w) as (evs & Hw & HP & Hterm).
  destruct (c w) as [[a|e|] w1]; simpl in *; subst; [|by exists evs|done].
  destruct (Hk a (w ++ evs)) as (evs' & -> & HP' & Hterm').
  exists (evs ++ evs'). split; [by rewrite app_assoc|].
  split; [by apply Forall_app|done].
Qed.

Lemma adds_call {A} (P : Event -> Prop) (ev : Event) (answer : exn + A) :
  P ev -> adds P (call ev answer).
Proof.
  intros Hev w. exists [ev]. unfold call, bind, emit.
  destruct answer; simpl; by repeat constructor.
Qed.

Lemma adds_info (P : Event -> Prop) (fmt : string) (args : list LogArg) :
  P (Log (Info fmt args)) -> adds P (logger_info fmt args).
Proof. intros Hev w. exists [Log (Info fmt args)]. by repeat constructor. Qed.

Lemma adds_index {A} (P : Event -> Prop) (l : list A) (i : nat) : adds P (index l i).
Proof. unfold index. destruct (l !! i); [apply adds_ret|apply adds_raise]. Qed.

(** Any event but a call of the push loader. *)
Definition not_a_push (ev : Event) : Prop :=
  match ev with
  | PushProcess _ _ _ => False
  | _ => True
  end.

Lemma not_a_push_events (evs : list Event) : Forall not_a_push evs -> pushed_events evs = [].
Proof.
  induction 1 as [|ev evs Hev _ IH]; [done|].
  destruct ev; simpl in *; done.
Qed.

Lemma adds_parents (todo : list ParentRef) (eventBaseSha : string) :
  adds not_a_push (query_data_parents todo eventBaseSha).
Proof.
  induction todo as [|parent rest IH]; simpl; [apply adds_ret|].
  apply adds_bind; [by apply adds_call|].
  intros c. destruct (parents c); [done|].
  apply adds_bind; [by apply adds_info|]. intros _. apply adds_ret.
Qed.

Lemma adds_pulse (meta : RepoMeta) (head : string) :
  adds not_a_push (github_push_to_pulse meta head).
Proof.
  unfold github_push_to_pulse, query_data, compareUrl, fetchApi, fetch_json.
  repeat first
    [ apply adds_ret
    | apply adds_parents
    | apply adds_info; exact I
    | apply adds_call; exact I
    | apply adds_bind; [|intros ?]
    | match goal with |- adds _ (match ?x with _ => _ end) => destruct x end ].
Qed.

Lemma adds_repo_meta (project : string) : adds not_a_push (repo_meta project).
Proof.
  unfold repo_meta.
  repeat first
    [ apply adds_ret
    | apply adds_index
    | apply adds_bind; [|intros ?] ].
  intros w. exists [RepositoryFilter project]. by repeat constructor.
Qed.

(** X11: [ingestGitPush] calls the push loader at most once and as its last
    action. Either a lookup or a request failed, it raises and the loader was
    never called; or the loader was called once, after everything else, and
    [ingestGitPush] ends as that call did. *)
Theorem ingestGitPush_pushes_last (project : string) (c : Commit) (w : World) :
  exists before,
    pushed_events before = []
    /\ ((exists e, ingestGitPush project c w = (Raised e, w ++ before))
        \/ (exists pushed exch root,
              ingestGitPush project c w =
                (match PushLoader_process pushed exch root with
                 | inr _ => Returned tt
                 | inl e => Raised e
                 end,
                 w ++ before ++ [PushProcess pushed exch root]))).
Proof.
  unfold ingestGitPush, bind.
  destruct (adds_repo_meta "fenix" w) as (evs & Hw & HP & Hterm).
  destruct (repo_meta "fenix" w) as [[meta|e|] w1]; simpl in *; subst;
    [| |by destruct Hterm].
  - destruct (adds_pulse meta (sha c) (w ++ evs)) as (evs' & Hw' & HP' & Hterm').
    destruct (github_push_to_pulse meta (sha c) (w ++ evs)) as [[pulse|e|] w2];
      simpl in *; subst; [| |by destruct Hterm'].
    + exists (evs ++ evs'). split; [apply not_a_push_events; by apply Forall_app|].
      right. exists (pulse_payload pulse), (pulse_exchange pulse), (tc_root_url meta).
      destruct (PushLoader_process _ _ _) as [e|[]];
        rewrite ?call_raises, ?call_returns; by rewrite !app_assoc.
    + exists (evs ++ evs'). split; [apply not_a_push_events; by apply Forall_app|].
      left. exists e. by rewrite app_assoc.
  - exists evs. split; [by apply not_a_push_events|]. left. by exists e.
Qed.

(** *** Finding the decision task *)

(** An answer of [requests.get]: its status and the JSON object of its body. *)
Record IndexAnswer := { status_code : Z; json : gmap string string }.

(** [taskcluster_urls.api] and [requests.get]: neither is part of ingest.py. *)
Variable liburls_api : string -> string -> string -> string -> string.
Variable requests_get : string -> exn + IndexAnswer.

(** [find_task_id]; the request is recorded like the other HTTP requests. *)
Definition find_task_id (index_path root_url : string) : M string :=
  let index_url := liburls_api root_url "index" "v1" ("task/" +:+ index_path) in
  response <- call (FetchJson index_url) (requests_get index_url) ;;
  if (status_code response =? 404)%Z
  then raise (Failure ("Index URL " +:+ index_url +:+ " not found"))
  else getitem (json response) "taskId".

(** [get_decision_task_id]. *)
Definition get_decision_task_id (project revision root_url : string) : M string :=
  let index_path := "gecko.v2." +:+ project +:+ ".revision." +:+ revision
                    +:+ ".taskgraph.decision" in
  find_task_id index_path root_url.

(** The index url of a revision's decision task. *)
Definition decision_index_url (project revision root_url : string) : string :=
  liburls_api root_url "index" "v1"
    ("task/gecko.v2." +:+ project +:+ ".revision." +:+ revision +:+ ".taskgraph.decision").


(** *** Ingesting the pushes of a repository *)

(** The commits listing of the GitHub API, fetched through [fetch_json]. *)
Variable commits_json : string -> exn + list Commit.

Fixpoint ingestGitPushes_loop (project : string) (todo : list Commit) : M unit :=
  match todo with
  | [] => ret tt
  | _commit :: rest =>
      ingestGitPush project _commit ;;
      ingestGitPushes_loop project rest
  end.

(** [ingestGitPushes]. *)
Definition ingestGitPushes (project : string) : M unit :=
  _repo <- repo_meta project ;;
  listing <- fetchApi commits_json
               ("repos/" +:+ owner _repo +:+ "/" +:+ repo _repo +:+ "/commits") ;;
  ingestGitPushes_loop project listing.

Definition commits_address (meta : RepoMeta) : string :=
  GITHUB_API +:+ "/" +:+ "repos/" +:+ owner meta +:+ "/" +:+ repo meta +:+ "/commits".

Lemma ingestGitPush_queries_fenix (project : string) (c : Commit) (w : World) :
  queried (ingestGitPush project c w).2 = queried w ++ ["fenix"].
Proof.
  unfold ingestGitPush, repo_meta.
  rewrite bind_assoc. unfold bind at 1, emit.
  rewrite queried_no_query.
  - rewrite queried_app. reflexivity.
  - repeat first
      [ apply no_query_ret
      | apply no_query_index
      | apply no_query_pulse
      | apply no_query_call; reflexivity
      | apply no_query_bind; [|intros ?] ].
Qed.

Lemma ingestGitPushes_loop_ingests (project : string) (todo : list Commit) (w : World) :
  (forall c w0, c ∈ todo -> (ingestGitPush project c w0).1 = Returned tt) ->
  (ingestGitPushes_loop project todo w).1 = Returned tt
  /\ queried (ingestGitPushes_loop project todo w).2
     = queried w ++ replicate (length todo) "fenix".
Proof.
  revert w. induction todo as [|c rest IH]; intros w Hok; simpl.
  - by rewrite app_nil_r.
  - unfold bind.
    pose proof (Hok c w ltac:(left)) as Hc.
    pose proof (ingestGitPush_queries_fenix project c w) as Hq.
    destruct (ingestGitPush project c w) as [[[]|e|] w1]; simpl in *; try done.
    destruct (IH w1) as [Hrun Hqueries].
    { intros c' w0 Hin. apply Hok. by right. }
    split; [done|]. by rewrite Hqueries, Hq, <- app_assoc.
Qed.

Lemma ingestGitPushes_loop_stops (project : string) (ingested : list Commit) (c : Commit)
    (rest : list Commit) (e : exn) (w : World) :
  (forall c' w0, c' ∈ ingested -> (ingestGitPush project c' w0).1 = Returned tt) ->
  (forall w0, (ingestGitPush project c w0).1 = Raised e) ->
  (ingestGitPushes_loop project (ingested ++ c :: rest) w).1 = Raised e
  /\ queried (ingestGitPushes_loop project (ingested ++ c :: rest) w).2
     = queried w ++ replicate (S (length ingested)) "fenix".
Proof.
  revert w. induction ingested as [|c0 ingested IH]; intros w Hok Hfail; simpl.
  - unfold bind.
    pose proof (Hfail w) as Hc.
    pose proof (ingestGitPush_queries_fenix project c w) as Hq.
    by destruct (ingestGitPush project c w) as [[[]|e'|] w1]; simpl in *.
  - unfold bind.
    pose proof (Hok c0 w ltac:(left)) as Hc.
    pose proof (ingestGitPush_queries_fenix project c0 w) as Hq.
    destruct (ingestGitPush project c0 w) as [[[]|e'|] w1]; simpl in *; try done.
    destruct (IH w1) as [Hrun Hqueries]; [|done|].
    { intros c' w0 Hin. apply Hok. by right. }
    split; [done|]. by rewrite Hqueries, Hq, <- app_assoc.
Qed.

Lemma repo_meta_queries (project : string) (w : World) :
  queried (repo_meta project w).2 = queried w ++ [project].
Proof.
  unfold repo_meta. unfold bind at 1, emit.
  rewrite queried_no_query.
  - by rewrite queried_app.
  - repeat first
      [ apply no_query_ret
      | apply no_query_index
      | apply no_query_bind; [|intros ?] ].
Qed.

Lemma ingestGitPushes_listed (project : string) (meta : RepoMeta) (listing : list Commit)
    (w w1 : World) :
  repo_meta project w = (Returned meta, w1) ->
  commits_json (commits_address meta) = inr listing ->
  ingestGitPushes project w =
    ingestGitPushes_loop project listing (w1 ++ [FetchJson (commits_address meta)]).
Proof.
  intros Hmeta Hlisting. unfold ingestGitPushes, fetchApi, fetch_json.
  unfold bind at 1. rewrite Hmeta. cbv beta iota. unfold bind at 1.
  fold (commits_address meta).
  by rewrite Hlisting, call_returns.
Qed.

(** X13: [ingestGitPushes] lists the commits of the repository of [project],
    but ingests each of them through [ingestGitPush], which looks up "fenix":
    when every commit is ingested, it returns after one repository lookup
    for the project followed by one lookup of "fenix" per listed commit. *)
Theorem ingestGitPushes_looks_up_fenix (project : string) (meta : RepoMeta)
    (listing : list Commit) (w w1 : World) :
  repo_meta project w = (Returned meta, w1) ->
  commits_json (commits_address meta) = inr listing ->
  (forall c w0, c ∈ listing -> (ingestGitPush project c w0).1 = Returned tt) ->
  (ingestGitPushes project w).1 = Returned tt
  /\ queried (ingestGitPushes project w).2
     = queried w ++ project :: replicate (length listing) "fenix".
Proof.
  intros Hmeta Hlisting Hok.
  rewrite (ingestGitPushes_listed project meta listing w w1 Hmeta Hlisting).
  destruct (ingestGitPushes_loop_ingests project listing
              (w1 ++ [FetchJson (commits_address meta)]) Hok) as [Hrun Hq].
  split; [done|]. rewrite Hq, queried_app. simpl. rewrite app_nil_r.
  pose proof (repo_meta_queries project w) as Hw1. rewrite Hmeta in Hw1. simpl in Hw1.
  by rewrite Hw1, <- app_assoc.
Qed.

(** X14: the pushes of a listing are not isolated from each other: when the
    ingestion of a commit raises, [ingestGitPushes] raises that exception and
    the commits listed after it are never looked at. *)
Theorem ingestGitPushes_stops_at_failure (project : string) (meta : RepoMeta)
    (ingested rest : list Commit) (c : Commit) (e : exn) (w w1 : World) :
  repo_meta project w = (Returned meta, w1) ->
  commits_json (commits_address meta) = inr (ingested ++ c :: rest) ->
  (forall c' w0, c' ∈ ingested -> (ingestGitPush project c' w0).1 = Returned tt) ->
  (forall w0, (ingestGitPush project c w0).1 = Raised e) ->
  (ingestGitPushes project w).1 = Raised e
  /\ queried (ingestGitPushes project w).2
     = queried w ++ project :: replicate (S (length ingested)) "fenix".
Proof.
  intros Hmeta Hlisting Hok Hfail.
  rewrite (ingestGitPushes_listed project meta _ w w1 Hmeta Hlisting).
  destruct (ingestGitPushes_loop_stops project ingested c rest e
              (w1 ++ [FetchJson (commits_address meta)]) Hok Hfail) as [Hrun Hq].
  split; [done|]. rewrite Hq, queried_app. simpl queried at 2. rewrite app_nil_r.
  pose proof (repo_meta_queries project w) as Hw1. rewrite Hmeta in Hw1. simpl in Hw1.
  by rewrite Hw1, <- app_assoc.
Qed.

(** *** The pull request event of [Command.handle] *)

Record PullRequestDetails :=
  { pr_pullNumber : string; pr_base_repo_url : string; pr_head_repo_url : string }.

Record PullRequestPayload :=
  { pr_repository : string; pr_organization : string; pr_action : string;
    pr_details : PullRequestDetails }.

Record PullRequestPulse :=
  { pr_exchange : string; pr_routingKey : string; pr_payload : PullRequestPayload }.

(** The [pulse] the "pr" branch of [Command.handle] builds from
    [options["prUrl"]], lines 313-330; the branch then hands its payload and
    exchange to the push loader. *)
Definition pull_request_pulse (pr_url : string) : M PullRequestPulse :=
  let splitUrl := PyStr.split "/"%char None pr_url in
  org <- index splitUrl 3 ;;
  the_repo <- index splitUrl 4 ;;
  number <- index splitUrl 6 ;;
  ret {| pr_exchange := "exchange/taskcluster-github/v1/pull-request";
         pr_routingKey := "primary." +:+ org +:+ "." +:+ the_repo +:+ ".synchronize";
         pr_payload :=
           {| pr_repository := the_repo;
              pr_organization := org;
              pr_action := "synchronize";
              pr_details :=
                {| pr_pullNumber := number;
                   pr_base_repo_url := "https://github.com/" +:+ org +:+ "/" +:+ the_repo +:+ ".git";
                   pr_head_repo_url := "https://github.com/" +:+ org +:+ "/" +:+ the_repo +:+ ".git" |} |} |}.

(** X15: for a pull request url of the form
    scheme//host/org/repo/word/number (with or without more behind the
    number), the event names org as organization and repo as repository, its
    pull number is the piece after word up to the next slash, and its base and
    head repository urls are https://github.com/org/repo.git whatever the host
    of the url is. *)
Theorem pull_request_pulse_pieces (scheme host org the_repo word rest : string) (w : World) :
  PyStr.contains "/" scheme = false ->
  PyStr.contains "/" host = false ->
  PyStr.contains "/" org = false ->
  PyStr.contains "/" the_repo = false ->
  PyStr.contains "/" word = false ->
  pull_request_pulse
    (scheme +:+ "//" +:+ host +:+ "/" +:+ org +:+ "/" +:+ the_repo +:+ "/" +:+ word
     +:+ "/" +:+ rest) w =
  (Returned
     {| pr_exchange := "exchange/taskcluster-github/v1/pull-request";
        pr_routingKey := "primary." +:+ org +:+ "." +:+ the_repo +:+ ".synchronize";
        pr_payload :=
          {| pr_repository := the_repo;
             pr_organization := org;
             pr_action := "synchronize";
             pr_details :=
               {| pr_pullNumber := PyStr.prefix_before "/" rest;
                  pr_base_repo_url :=
                    "https://github.com/" +:+ org +:+ "/" +:+ the_repo +:+ ".git";
                  pr_head_repo_url :=
                    "https://github.com/" +:+ org +:+ "/" +:+ the_repo +:+ ".git" |} |} |},
   w).
Proof.
  intros Hscheme Hhost Horg Hrepo Hword. unfold pull_request_pulse.
  change ("//" +:+ host +:+ "/" +:+ org +:+ "/" +:+ the_repo +:+ "/" +:+ word +:+ "/" +:+ rest)
    with (String "/" (String "/"
            (host +:+ String "/" (org +:+ String "/" (the_repo +:+ String "/"
               (word +:+ String "/" rest)))))).
  rewrite (PyStr.split_app_sep _ scheme) by done.
  rewrite PyStr.split_sep_first.
  rewrite (PyStr.split_app_sep _ host) by done.
  rewrite (PyStr.split_app_sep _ org) by done.
  rewrite (PyStr.split_app_sep _ the_repo) by done.
  rewrite (PyStr.split_app_sep _ word) by done.
  destruct (PyStr.split_head "/" None rest eq_refl) as [pieces ->].
  reflexivity.
Qed.

(** X16: building the pull request event raises [IndexError] exactly when the
    url has fewer than six slashes: the piece [[6]], the pull number, is then
    missing. *)
Theorem pull_request_pulse_short_url (pr_url : string) (w : World) :
  (pull_request_pulse pr_url w).1 = Raised IndexError <-> PyStr.count "/" pr_url < 6.
Proof.
  unfold pull_request_pulse.
  pose proof (PyStr.split_length "/" pr_url) as Hlen.
  destruct (PyStr.split "/" None pr_url)
    as [|p0 [|p1 [|p2 [|p3 [|p4 [|p5 [|p6 pieces]]]]]]];
    simpl in Hlen; unfold bind, index; simpl; split; intros H; try done; lia.
Qed.

End Program.

(** *** Loading a job whose loader raises *)

(** C2: [process_job_with_threads] takes a connection slot before it calls the
    job loader, but when the loader raises it never gives the slot back: the
    exception leaves the function with one more slot held than before. *)
Theorem process_job_with_threads_keeps_slot (pulse_job : Job) (root : string) (e : exn)
    (w : World) :
  process_job_with_threads (fun _ _ => inl e) pulse_job root w =
    (Raised e,
     w ++ [AcquireConnection;
           Log (Info "Loading into DB:\t%s" [ArgStr (job_taskId pulse_job)]);
           ProcessJob pulse_job root])
  /\ slots_held (process_job_with_threads (fun _ _ => inl e) pulse_job root w).2
     = (slots_held w + 1)%Z.
Proof.
  rewrite process_job_with_threads_runs. split; [reflexivity|].
  simpl. rewrite slots_held_app. reflexivity.
Qed.

(** On the normal path the slot is given back. *)
Lemma process_job_with_threads_releases (pulse_job : Job) (root : string) (w : World) :
  slots_held (process_job_with_threads (fun _ _ => inr tt) pulse_job root w).2
  = slots_held w.
Proof.
  rewrite process_job_with_threads_runs. simpl. rewrite slots_held_app. simpl. lia.
Qed.

(** *** A listing that fails *)

(** C3: when the first listing request raises, [processTasks] logs the
    failure and then raises [UnboundLocalError]: its local [tasks] was never
    bound, so the exception escapes to the caller instead of an empty batch
    being returned. *)
Theorem processTasks_unbound_tasks (EXCHANGE_EVENT_MAP : list (string * string))
    (handleMessage : Message -> TaskDef -> exn + list Job)
    (process_job : Job -> string -> exn + unit)
    (fuel : nat) (taskGroupId root : string) (e : exn) (w : World) :
  processTasks EXCHANGE_EVENT_MAP handleMessage process_job (fun _ _ _ => inl e)
    (S fuel) taskGroupId root w =
  (Raised (UnboundLocalError "tasks"),
   w ++ [ListTaskGroup root taskGroupId None; Log (Exception e)]).
Proof.
  rewrite (processTasks_fetch_raises _ _ _ _ _ _ _ e w (w ++ [ListTaskGroup root taskGroupId None])).
  - by rewrite <- app_assoc.
  - reflexivity.
Qed.

(** *** Scenarios *)

(** An exchange map of the handler's shape: one exchange per run state. *)
Definition sample_exchanges : list (string * string) :=
  [("exchange/taskcluster-queue/v1/task-pending", "pending");
   ("exchange/taskcluster-queue/v1/task-running", "running");
   ("exchange/taskcluster-queue/v1/task-completed", "completed");
   ("exchange/taskcluster-queue/v1/task-failed", "failed");
   ("exchange/taskcluster-queue/v1/task-exception", "exception")].

(** A task that failed once and then completed. *)
Definition run0 : Run := {| runId := 0; state := "failed" |}.

Definition run1 : Run := {| runId := 1; state := "completed" |}.

Definition retried_task : Task :=
  {| status := {| taskId := "T"; runs := [run0; run1] |};
     task := TaskDefinition "{}" |}.

Definition job_of (run : Z) : Job :=
  {| job_taskId := "T"; job_body := if (run =? 0)%Z then "run 0" else "run 1" |}.

(** A normalization collaborator that raises for one run and returns one job
    for any other. *)
Definition raises_for (bad : Z) (message : Message) (_ : TaskDef) : exn + list Job :=
  if (payload_runId (payload message) =? bad)%Z
  then inl (Failure "malformed run")
  else inr [job_of (payload_runId (payload message))].

Definition normalizes (message : Message) (_ : TaskDef) : exn + list Job :=
  inr [job_of (payload_runId (payload message))].

Definition loads (_ : Job) (_ : string) : exn + unit := inr tt.

(** C1: a run whose classification raises is not isolated. When the
    collaborator raises for the newest run, [handleTask] logs the exception and
    then raises [UnboundLocalError] itself, so the older run is never handed
    to the collaborator. When it raises for the older run, [handleTask] loads
    the job payloads of the newer run a second time. *)
Theorem handleTask_failure_not_isolated :
  (handleTask sample_exchanges (raises_for 1) loads retried_task "root" []).1
    = Raised (UnboundLocalError "taskRuns")
  /\ handled (handleTask sample_exchanges (raises_for 1) loads retried_task "root" []).2
     = [(message_for retried_task "root" run1
           "exchange/taskcluster-queue/v1/task-completed", TaskDefinition "{}")]
  /\ (handleTask sample_exchanges (raises_for 0) loads retried_task "root" []).1
     = Returned tt
  /\ loaded (handleTask sample_exchanges (raises_for 0) loads retried_task "root" []).2
     = [(job_of 1, "root"); (job_of 1, "root")].
Proof. vm_compute. repeat split. Qed.

(** A batch of three units, the second of which raises. *)
Definition three_units : list (M unit) :=
  [call (FetchJson "T1") (inr tt);
   call (FetchJson "T2") (inl (Failure "HTTP 500"));
   call (FetchJson "T3") (inr tt)].

(** The batch is awaited to its end: the third unit runs after the second
    raised, and the failure is only logged. *)
Lemma await_futures_isolates_three :
  (forall fut w0, fut ∈ three_units -> (fut w0).1 <> Diverged)
  /\ await_futures three_units []
     = (Returned tt,
        [FetchJson "T1"; FetchJson "T2"; Log (Exception (Failure "HTTP 500")); FetchJson "T3"]).
Proof.
  assert (forall fut w0, fut ∈ three_units -> (fut w0).1 <> Diverged) as Hterm.
  { intros fut w0 Hin. unfold three_units in Hin.
    repeat (apply elem_of_cons in Hin as [->|Hin]); [discriminate..|].
    by apply elem_of_nil in Hin. }
  split; [exact Hterm|].
  exact (await_futures_isolates three_units [] Hterm).
Defined.

(** The retried task: run 1 is classified first, then run 0. *)
Lemma handleTask_newest_first_retried :
  exists w' invocations,
    handleTask sample_exchanges normalizes loads retried_task "root" [] = (Returned tt, w')
    /\ handled w' = handled [] ++ invocations
    /\ Forall2 (invoked_for sample_exchanges retried_task "root") [run1; run0] invocations.
Proof.
  apply (handleTask_newest_first sample_exchanges normalizes loads retried_task "root" []).
  - intros run Hrun. simpl in Hrun.
    repeat (apply elem_of_cons in Hrun as [->|Hrun]); [by vm_compute; eexists..|].
    by apply elem_of_nil in Hrun.
  - intros run exch _ _. by eexists.
Defined.

(** A group of three tasks served in one page; the second task has a run
    whose state has no exchange, so its [handleTask] raises [KeyError]. *)
Definition with_run (name state_name : string) : Task :=
  {| status := {| taskId := name; runs := [{| runId := 0; state := state_name |}] |};
     task := TaskDefinition "{}" |}.

Definition one_page (_ _ : string) (_ : option string) : exn + ListResponse :=
  inr {| tasks := [with_run "T1" "completed"; with_run "T2" "bogus"; with_run "T3" "failed"];
         continuationToken := None |}.

Example processTasks_three_tasks :
  (processTasks sample_exchanges normalizes loads one_page 1 "G" "root" []).1 = Returned tt
  /\ map (fun invocation => taskId (payload_status (payload invocation.1)))
         (handled (processTasks sample_exchanges normalizes loads one_page 1 "G" "root" []).2)
     = ["T1"; "T3"]
  /\ Log (Exception (KeyError "bogus"))
     ∈ (processTasks sample_exchanges normalizes loads one_page 1 "G" "root" []).2.
Proof.
  vm_compute. split; [reflexivity|]. split; [reflexivity|].
  repeat first [ left | right ].
Qed.

(** Tasks to list. *)
Definition listed (name : string) : Task :=
  {| status := {| taskId := name; runs := [] |}; task := TaskDefinition "{}" |}.

(** An endpoint that serves three pages, linked by the tokens "a" and "b". *)
Definition three_pages (_ _ : string) (query : option string) : exn + ListResponse :=
  match query with
  | None => inr {| tasks := [listed "T1"; listed "T2"]; continuationToken := Some "a" |}
  | Some token =>
      if String.eqb token "a"
      then inr {| tasks := [listed "T3"]; continuationToken := Some "b" |}
      else if String.eqb token "b"
      then inr {| tasks := [listed "T4"]; continuationToken := None |}
      else inl (Failure "HTTP 400")
  end.

Definition pages_served : list ListResponse :=
  [{| tasks := [listed "T1"; listed "T2"]; continuationToken := Some "a" |};
   {| tasks := [listed "T3"]; continuationToken := Some "b" |};
   {| tasks := [listed "T4"]; continuationToken := None |}].

(** The three pages are fetched once each, in order. *)
Lemma fetchGroupTasks_three_pages :
  page_chain three_pages "root" "G" None pages_served
  /\ exists w',
      fetchGroupTasks three_pages 3 "G" "root" []
      = (Returned [listed "T1"; listed "T2"; listed "T3"; listed "T4"], w')
      /\ requested w' = [None; Some "a"; Some "b"].
Proof.
  assert (page_chain three_pages "root" "G" None pages_served) as Hchain.
  { eapply chain_next; [reflexivity..|].
    eapply chain_next; [reflexivity..|].
    by eapply chain_last. }
  split; [exact Hchain|].
  apply (fetchGroupTasks_follows_tokens three_pages "root" "G" pages_served 3 [] Hchain).
  - repeat constructor; discriminate.
  - simpl. lia.
Defined.

(** An endpoint whose first page carries the empty string as its token; the
    page that token leads to is the last one. *)
Definition empty_token (_ _ : string) (query : option string) : exn + ListResponse :=
  match query with
  | None => inr {| tasks := [listed "T1"]; continuationToken := Some EmptyString |}
  | Some _ => inr {| tasks := [listed "T2"]; continuationToken := None |}
  end.

Lemma empty_token_loops (fuel : nat) (so_far : list Task) (w : World) :
  (fetchGroupTasks_loop empty_token fuel "G" "root" so_far None EmptyString w).1 = Diverged.
Proof.
  revert so_far w. induction fuel as [|fuel IH]; intros so_far w; [reflexivity|].
  simpl. unfold bind at 1. rewrite call_returns. simpl.
  unfold bind at 1, logger_info, emit. apply IH.
Qed.

(** C5 as stated fails: this endpoint serves a chain of two pages, linked by
    a token and ending in a page without one, and [fetchGroupTasks] never
    returns on it, whatever the fuel: the empty token is not sent, so the first
    page is requested again and again. *)
Lemma fetchGroupTasks_empty_token_diverges :
  page_chain empty_token "root" "G" None
    [{| tasks := [listed "T1"]; continuationToken := Some EmptyString |};
     {| tasks := [listed "T2"]; continuationToken := None |}]
  /\ forall fuel w, (fetchGroupTasks empty_token fuel "G" "root" w).1 = Diverged.
Proof.
  split.
  - eapply chain_next; [reflexivity..|]. by eapply chain_last.
  - intros fuel w. apply empty_token_loops.
Qed.

(** A forward mapping in which two exchanges have the same state. *)
Definition two_for_one : list (string * string) :=
  [("exchange/a", "completed"); ("exchange/b", "completed")].

(** C8 as stated fails: for a forward mapping that is not injective the
    import returns normally, and the dict it built has lost an exchange. *)
Lemma stateToExchange_lossy :
  ("exchange/a", "completed") ∈ two_for_one
  /\ ("exchange/b", "completed") ∈ two_for_one
  /\ import_stateToExchange two_for_one = Returned (stateToExchange two_for_one)
  /\ stateToExchange two_for_one !! "completed" = Some "exchange/b"
  /\ forall s, stateToExchange two_for_one !! s <> Some "exchange/a".
Proof.
  split; [left|]. split; [right; left|]. split; [reflexivity|]. split; [reflexivity|].
  intros s. unfold stateToExchange. rewrite stateToExchange_fold, lookup_empty.
  unfold two_for_one. rewrite !filter_cons, filter_nil. simpl.
  destruct (decide ("completed" = s)); simpl; discriminate.
Qed.

(** A merge base with two parents: [P1] is a root commit, [P2] has a parent. *)
Definition fenix_meta : RepoMeta :=
  {| url := "https://github.com/mozilla-mobile/fenix";
     branch := "master";
     owner := "mozilla-mobile";
     repo := "fenix";
     tc_root_url := "https://firefox-ci-tc.services.mozilla.com" |}.

Definition P1 : ParentRef := {| parent_sha := "p1"; parent_url := "https://api.github.com/commits/p1" |}.

Definition P2 : ParentRef := {| parent_sha := "p2"; parent_url := "https://api.github.com/commits/p2" |}.

Definition written (by_whom : string) : CommitInfo :=
  {| message := "a change"; author := by_whom; committer := by_whom |}.

Definition merge_base : Commit :=
  {| sha := "mb"; commit := written "merger"; parents := [P1; P2] |}.

Definition first_comparison : CompareResponse :=
  {| merge_base_commit := Some merge_base;
     commits := [{| sha := "c0"; commit := written "someone"; parents := [] |}] |}.

Definition second_comparison : CompareResponse :=
  {| merge_base_commit := Some merge_base;
     commits := [{| sha := "c1"; commit := written "dev"; parents := [P2] |};
                 {| sha := "head"; commit := written "dev"; parents := [] |}] |}.

Definition github_compare (address : string) : exn + CompareResponse :=
  if String.eqb address
       "https://api.github.com/repos/mozilla-mobile/fenix/compare/master...head"
  then inr first_comparison
  else if String.eqb address
       "https://api.github.com/repos/mozilla-mobile/fenix/compare/p2...head"
  then inr second_comparison
  else inl (Failure "HTTP 404").

Definition github_commit (address : string) : exn + Commit :=
  if String.eqb address (parent_url P1)
  then inr {| sha := "p1"; commit := written "root"; parents := [] |}
  else if String.eqb address (parent_url P2)
  then inr {| sha := "p2"; commit := written "dev";
              parents := [{| parent_sha := "p0"; parent_url := "https://api.github.com/commits/p0" |}] |}
  else inl (Failure "HTTP 404").

(** For the parents [[P1; P2]] the corrected base is [P2]'s sha, and the second
    comparison is made with it. *)
Lemma query_data_second_parent :
  corrected_base github_commit fenix_meta merge_base = "p2"
  /\ exists w',
      query_data github_compare github_commit fenix_meta "head" [] =
        (Returned (corrected_base github_commit fenix_meta merge_base,
                   map push_commit (commits second_comparison)), w')
      /\ fetched w' =
           fetched []
           ++ [compare_address fenix_meta (branch fenix_meta) "head"]
           ++ map parent_url (inspected github_commit (parents merge_base))
           ++ [compare_address fenix_meta
                 (corrected_base github_commit fenix_meta merge_base) "head"].
Proof.
  split; [reflexivity|].
  apply (query_data_corrects_base github_compare github_commit fenix_meta "head"
           first_comparison second_comparison merge_base []).
  - reflexivity.
  - reflexivity.
  - intros parent Hin. simpl in Hin.
    repeat (apply elem_of_cons in Hin as [->|Hin]); [by eexists..|].
    by apply elem_of_nil in Hin.
  - reflexivity.
Defined.

(** The repository table, and a push loader that accepts everything. *)
Definition repositories : list Repository :=
  [{| repo_name := "mozilla-central";
      repo_url := "https://hg.mozilla.org/mozilla-central";
      repo_branch := "default";
      repo_tc_root_url := "https://firefox-ci-tc.services.mozilla.com" |};
   {| repo_name := "fenix";
      repo_url := "https://github.com/mozilla-mobile/fenix";
      repo_branch := "master";
      repo_tc_root_url := "https://firefox-ci-tc.services.mozilla.com" |}].

Definition accepts (_ : PushPayload) (_ _ : string) : exn + unit := inr tt.

Example repo_meta_fenix :
  (repo_meta repositories "fenix" []).1 = Returned fenix_meta.
Proof. reflexivity. Qed.

(** Asked to ingest a push of another project, [ingestGitPush] loads a push
    event of the fenix repository. *)
Example ingestGitPush_other_project :
  omap (fun pushed => Some (organization pushed.1.1, repository pushed.1.1))
       (pushed_events
          (ingestGitPush repositories github_compare github_commit accepts
             "mozilla-central" {| sha := "head"; commit := written "dev"; parents := [] |} []).2)
  = [("mozilla-mobile", "fenix")].
Proof. reflexivity. Qed.

(** *** More scenarios *)

(** A job loader that raises for the jobs of run 0. *)
Definition refuses_run0 (job : Job) (_ : string) : exn + unit :=
  if String.eqb (job_body job) "run 0" then inl (Failure "IntegrityError") else inr tt.

Ltac each_member H :=
  simpl in H; repeat (apply elem_of_cons in H as [->|H]);
  [..|by apply elem_of_nil in H].

(** The retried task: both jobs reach the loader, the newer run's first. *)
Lemma handleTask_loads_retried :
  exists w',
    handleTask sample_exchanges normalizes refuses_run0 retried_task "root" []
    = (Returned tt, w')
    /\ loaded w' = [(job_of 1, "root"); (job_of 0, "root")].
Proof.
  destruct (handleTask_loads_every_job sample_exchanges normalizes refuses_run0
              retried_task "root" []) as (w' & Hrun & Hloaded).
  - intros run Hrun. each_member Hrun; by vm_compute; eexists.
  - intros run exch _ _. by eexists.
  - exists w'. split; [exact Hrun|exact Hloaded].
Defined.

(** The retried task: the load of run 0's job raises, one slot stays held. *)
Lemma handleTask_slots_retried :
  slots_held (handleTask sample_exchanges normalizes refuses_run0 retried_task "root" []).2
  = 1%Z.
Proof.
  rewrite (handleTask_slots_leaked sample_exchanges normalizes refuses_run0
             retried_task "root" []).
  - reflexivity.
  - intros run Hrun. each_member Hrun; by vm_compute; eexists.
  - intros run exch _ _. by eexists.
Defined.

(** A task whose middle run has a state without exchange. *)
Definition odd_task : Task :=
  {| status := {| taskId := "T";
                  runs := [{| runId := 0; state := "exception" |};
                           {| runId := 1; state := "bogus" |};
                           {| runId := 2; state := "completed" |}] |};
     task := TaskDefinition "{}" |}.

Lemma handleTask_unmapped_middle :
  exists w' invocations,
    handleTask sample_exchanges normalizes loads odd_task "root" []
    = (Raised (KeyError "bogus"), w')
    /\ handled w' = handled [] ++ invocations
    /\ Forall2 (invoked_for sample_exchanges odd_task "root")
         [{| runId := 2; state := "completed" |}] invocations.
Proof.
  apply (handleTask_unmapped_state sample_exchanges normalizes loads odd_task "root"
           [{| runId := 0; state := "exception" |}]
           [{| runId := 2; state := "completed" |}]
           {| runId := 1; state := "bogus" |} []).
  - reflexivity.
  - reflexivity.
  - intros run Hrun. each_member Hrun; by vm_compute; eexists.
  - intros run exch _ _. by eexists.
Defined.

(** The group of three tasks: the listing succeeds, [processTasks] returns. *)
Lemma processTasks_returns_three_tasks :
  exists w',
    processTasks sample_exchanges normalizes loads one_page 1 "G" "root" []
    = (Returned tt, w').
Proof.
  apply (processTasks_returns_after_listing sample_exchanges normalizes loads one_page
           1 "G" "root"
           [with_run "T1" "completed"; with_run "T2" "bogus"; with_run "T3" "failed"]
           [] [ListTaskGroup "root" "G" None]).
  reflexivity.
Defined.

(** An endpoint that serves one page and fails on the next request. *)
Definition breaks_after_first (_ _ : string) (query : option string) : exn + ListResponse :=
  match query with
  | None => inr {| tasks := [listed "T1"]; continuationToken := Some "a" |}
  | Some _ => inl (Failure "HTTP 502")
  end.

Lemma fetchGroupTasks_second_request_fails :
  exists w',
    fetchGroupTasks breaks_after_first 2 "G" "root" [] = (Raised (Failure "HTTP 502"), w')
    /\ requested w' = [None; Some "a"].
Proof.
  apply (fetchGroupTasks_request_fails breaks_after_first "root" "G" (Failure "HTTP 502")
           [{| tasks := [listed "T1"]; continuationToken := Some "a" |}] 2 []).
  - eapply fails_later; [reflexivity|reflexivity|discriminate|].
    by apply fails_now.
  - simpl. lia.
Defined.

Lemma fetchGroupTasks_empty_token_endpoint :
  (fetchGroupTasks empty_token 1000 "G" "root" []).1 = Diverged.
Proof.
  apply (fetchGroupTasks_empty_token_never_ends empty_token "root" "G" 1000 []).
  by eapply empty_here.
Defined.

Lemma repo_meta_unknown_try :
  repo_meta repositories "try" [] = (Raised IndexError, [RepositoryFilter "try"]).
Proof.
  apply (repo_meta_unknown_project repositories "try" []).
  intros r Hr. unfold repositories in Hr. each_member Hr; discriminate.
Defined.

Definition central_row : Repository :=
  {| repo_name := "mozilla-central";
     repo_url := "https://hg.mozilla.org/mozilla-central";
     repo_branch := "default";
     repo_tc_root_url := "https://firefox-ci-tc.services.mozilla.com" |}.

Definition fenix_row : Repository :=
  {| repo_name := "fenix";
     repo_url := "https://github.com/mozilla-mobile/fenix";
     repo_branch := "master";
     repo_tc_root_url := "https://firefox-ci-tc.services.mozilla.com" |}.

Lemma repo_meta_fenix_pieces :
  repo_meta repositories "fenix" [] = (Returned fenix_meta, [RepositoryFilter "fenix"]).
Proof.
  apply (repo_meta_url_pieces repositories "fenix" [central_row] [] fenix_row
           "https:" "github.com" "mozilla-mobile" "fenix" []); try reflexivity.
  intros r Hr. each_member Hr; discriminate.
Defined.

Lemma repo_meta_fenix_long_enough :
  (repo_meta repositories "fenix" []).1 = Raised IndexError
  <-> PyStr.count "/" (repo_url fenix_row) < 4.
Proof.
  apply (repo_meta_short_url repositories "fenix" [central_row] [] fenix_row []);
    try reflexivity.
  intros r Hr. each_member Hr; discriminate.
Defined.

(** A comparison without merge base. *)
Definition plain_comparison : CompareResponse :=
  {| merge_base_commit := None;
     commits := [{| sha := "c1"; commit := written "dev"; parents := [] |};
                 {| sha := "head"; commit := written "dev"; parents := [] |}] |}.

Definition compares_plainly (_ : string) : exn + CompareResponse := inr plain_comparison.

Definition head_commit : Commit := {| sha := "head"; commit := written "dev"; parents := [] |}.

Lemma ingestGitPush_plain_push :
  ingestGitPush repositories compares_plainly github_commit accepts "fenix" head_commit []
  = (Returned tt,
     [RepositoryFilter "fenix";
      FetchJson "https://api.github.com/repos/mozilla-mobile/fenix/compare/master...head";
      PushProcess
        (push_payload_of fenix_meta "head" "master" (map push_commit (commits plain_comparison)))
        "exchange/taskcluster-github/v1/push"
        "https://firefox-ci-tc.services.mozilla.com"]).
Proof.
  exact (ingestGitPush_no_merge_base repositories compares_plainly github_commit accepts
           "fenix" head_commit fenix_meta plain_comparison []
           [RepositoryFilter "fenix"] eq_refl eq_refl eq_refl).
Defined.

(** Index urls as [taskcluster_urls] builds them for a root url. *)
Definition rooted_api (root service version path : string) : string :=
  root +:+ "/api/" +:+ service +:+ "/" +:+ version +:+ "/" +:+ path.

(** An index that answers with a server error. *)
Definition index_is_down (_ : string) : exn + IndexAnswer :=
  inr {| status_code := 500; json := {[ "code" := "InternalServerError" ]} |}.


(** A commits listing, and a push loader that refuses one commit. *)
Definition second_commit : Commit := {| sha := "c2"; commit := written "dev"; parents := [] |}.

Definition third_commit : Commit := {| sha := "c3"; commit := written "dev"; parents := [] |}.

Definition lists_commits (_ : string) : exn + list Commit :=
  inr [head_commit; second_commit; third_commit].

Definition refuses_c2 (pushed : PushPayload) (_ _ : string) : exn + unit :=
  if String.eqb (event_head_sha (details pushed)) "c2"
  then inl (Failure "push refused")
  else inr tt.

Definition browser_row : Repository :=
  {| repo_name := "reference-browser";
     repo_url := "https://github.com/mozilla-mobile/reference-browser";
     repo_branch := "master";
     repo_tc_root_url := "https://firefox-ci-tc.services.mozilla.com" |}.

Definition more_repositories : list Repository := repositories ++ [browser_row].

Lemma ingestGitPushes_browser_as_fenix :
  (ingestGitPushes more_repositories compares_plainly github_commit accepts lists_commits
     "reference-browser" []).1 = Returned tt
  /\ queried (ingestGitPushes more_repositories compares_plainly github_commit accepts
                lists_commits "reference-browser" []).2
     = ["reference-browser"; "fenix"; "fenix"; "fenix"].
Proof.
  apply (ingestGitPushes_looks_up_fenix more_repositories compares_plainly github_commit
           accepts lists_commits "reference-browser"
           {| url := "https://github.com/mozilla-mobile/reference-browser"; branch := "master";
              owner := "mozilla-mobile"; repo := "reference-browser";
              tc_root_url := "https://firefox-ci-tc.services.mozilla.com" |}
           [head_commit; second_commit; third_commit] []
           [RepositoryFilter "reference-browser"]).
  - reflexivity.
  - reflexivity.
  - intros c w0 Hc. each_member Hc; reflexivity.
Defined.

Lemma ingestGitPushes_stops_at_c2 :
  (ingestGitPushes repositories compares_plainly github_commit refuses_c2 lists_commits
     "fenix" []).1 = Raised (Failure "push refused")
  /\ queried (ingestGitPushes repositories compares_plainly github_commit refuses_c2
                lists_commits "fenix" []).2
     = ["fenix"; "fenix"; "fenix"].
Proof.
  apply (ingestGitPushes_stops_at_failure repositories compares_plainly github_commit
           refuses_c2 lists_commits "fenix" fenix_meta
           [head_commit] [third_commit] second_commit (Failure "push refused") []
           [RepositoryFilter "fenix"]).
  - reflexivity.
  - reflexivity.
  - intros c w0 Hc. each_member Hc; reflexivity.
  - intros w0. reflexivity.
Defined.

Lemma pull_request_pulse_android_components :
  pull_request_pulse "https://github.com/mozilla-mobile/android-components/pull/4821" []
  = (Returned
       {| pr_exchange := "exchange/taskcluster-github/v1/pull-request";
          pr_routingKey := "primary.mozilla-mobile.android-components.synchronize";
          pr_payload :=
            {| pr_repository := "android-components";
               pr_organization := "mozilla-mobile";
               pr_action := "synchronize";
               pr_details :=
                 {| pr_pullNumber := "4821";
                    pr_base_repo_url := "https://github.com/mozilla-mobile/android-components.git";
                    pr_head_repo_url := "https://github.com/mozilla-mobile/android-components.git" |} |} |},
     []).
Proof.
  exact (pull_request_pulse_pieces "https:" "github.com" "mozilla-mobile" "android-components"
           "pull" "4821" [] eq_refl eq_refl eq_refl eq_refl eq_refl).
Defined.

(** X22: when the job loader returns, [process_job_with_threads] has taken
    a connection slot before the call and given it back after it: it returns
    with as many slots held as before. *)
Theorem process_job_with_threads_gives_back (process_job : Job -> string -> exn + unit)
    (pulse_job : Job) (root : string) (w : World) :
  process_job pulse_job root = inr tt ->
  process_job_with_threads process_job pulse_job root w =
    (Returned tt,
     w ++ [AcquireConnection;
           Log (Info "Loading into DB:\t%s" [ArgStr (job_taskId pulse_job)]);
           ProcessJob pulse_job root;
           ReleaseConnection])
  /\ slots_held (process_job_with_threads process_job pulse_job root w).2 = slots_held w.
Proof.
  intros Hloaded. rewrite process_job_with_threads_runs, Hloaded.
  split; [reflexivity|]. simpl. rewrite slots_held_app. simpl. lia.
Qed.

Lemma process_job_with_threads_gives_back_job :
  process_job_with_threads loads (job_of 1) "root" [] =
    (Returned tt,
     [AcquireConnection; Log (Info "Loading into DB:\t%s" [ArgStr "T"]);
      ProcessJob (job_of 1) "root"; ReleaseConnection])
  /\ slots_held (process_job_with_threads loads (job_of 1) "root" []).2 = slots_held [].
Proof.
  exact (process_job_with_threads_gives_back loads (job_of 1) "root" [] eq_refl).
Defined.

(** The sample map is injective: "completed" is looked up to its exchange. *)
Lemma stateToExchange_inverse_sample :
  stateToExchange sample_exchanges !! "completed"
    = Some "exchange/taskcluster-queue/v1/task-completed"
  <-> ("exchange/taskcluster-queue/v1/task-completed", "completed") ∈ sample_exchanges.
Proof.
  apply (stateToExchange_inverse sample_exchanges).
  apply (bool_decide_unpack _). by vm_compute.
Defined.

End Ingest.

(** ** treeherder/etl/common.py: the requests

    ingest.py sees [fetch_json] only through what it returns or raises, which
    is how [Ingest] models it. This module follows what [make_request],
    [fetch_json] and [fetch_text] do with their headers, which are Python
    dicts and so objects shared with the caller. *)

Module Http.

(** A request as [requests.request] receives it; [headers_sent] is the content
    of the headers dict at the time of the call. *)
Record Request :=
  { method : string; address : string; headers_sent : gmap string string;
    params : option string; timeout : Z }.

(** An entry of [response.history]: a redirect, with its elapsed time. *)
Record Hop := { elapsed_microseconds : Z }.

(** What ingestion reads of a response: its redirect history, what
    [raise_for_status] raises (for an error status) if anything, its body as
    JSON when it is JSON, and its text. *)
Record Response :=
  { history : list Hop; http_error : option string; json : option string; text : string }.

Inductive error :=
| HTTPError (what : string)
| RequestException (what : string)
| JSONDecodeError.

(** The parameters of a [RedirectedRequest] event; the code records as
    duration the sum of the hops' elapsed seconds. *)
Record Redirected := { redirected_url : string; redirects : nat; hops : list Hop }.

(** The state: the dict objects by location, the requests sent and the
    events recorded with newrelic, oldest first. *)
Record State :=
  { dicts : gmap nat (gmap string string);
    sent : list Request;
    recorded : list Redirected }.

(** The dict at a location; one never written to is empty. *)
Definition dict_at (σ : State) (l : nat) : gmap string string :=
  default ∅ (dicts σ !! l).

Definition store (l : nat) (d : gmap string string) (σ : State) : State :=
  {| dicts := <[l := d]> (dicts σ); sent := sent σ; recorded := recorded σ |}.

Definition send (request : Request) (σ : State) : State :=
  {| dicts := dicts σ; sent := sent σ ++ [request]; recorded := recorded σ |}.

Definition record (event : Redirected) (σ : State) : State :=
  {| dicts := dicts σ; sent := sent σ; recorded := recorded σ ++ [event] |}.

(** The location of the dict that is the default value of [fetch_json]'s
    [headers]: one object, made when the function is defined. *)
Definition fetch_json_defaults : nat := 0.

Section Requests.

(** [settings.SITE_HOSTNAME], [os.environ.get("GITHUB_TOKEN")] and
    [requests.request]. *)
Variable SITE_HOSTNAME : string.
Variable GITHUB_TOKEN : option string.
Variable requests_request : Request -> error + Response.

(** [os.environ.get("GITHUB_TOKEN") and url.find("api.github.com") > -1]. *)
Definition sends_token (url : string) : bool :=
  match GITHUB_TOKEN with
  | Some token =>
      negb (String.eqb token EmptyString) && (-1 <? PyStr.find "api.github.com" url)%Z
  | None => false
  end.

(** The dict [headers or {}] denotes: the caller's object when it is not empty,
    and a new dict otherwise. *)
Definition headers_object (headers : option nat) (σ : State) : option nat :=
  match headers with
  | Some l => if decide (dict_at σ l = ∅) then None else Some l
  | None => None
  end.

(** [make_request]. Writes to the caller's object are writes to the heap. *)
Definition make_request (url method : string) (headers : option nat) (time_limit : Z)
    (query : option string) (σ : State) : (error + Response) * State :=
  let object := headers_object headers σ in
  let d0 := match object with Some l => dict_at σ l | None => ∅ end in
  let d1 := <["User-Agent" := "treeherder/" +:+ SITE_HOSTNAME]> d0 in
  let d2 := if sends_token url
            then <["Authorization" := "token " +:+ default EmptyString GITHUB_TOKEN]> d1
            else d1 in
  let σ1 := match object with Some l => store l d2 σ | None => σ end in
  let request := {| method := method; address := url; headers_sent := d2;
                    params := query; timeout := time_limit |} in
  let σ2 := send request σ1 in
  match requests_request request with
  | inl e => (inl e, σ2)
  | inr response =>
      let σ3 := match history response with
                | [] => σ2
                | _ :: _ =>
                    record {| redirected_url := url;
                              redirects := length (history response);
                              hops := history response |} σ2
                end in
      match http_error response with
      | Some what => (inl (HTTPError what), σ3)
      | None => (inr response, σ3)
      end
  end.

(** [fetch_json]; [headers] is [None] when the caller leaves it out. *)
Definition fetch_json (url : string) (query : option string) (headers : option nat)
    (σ : State) : (error + string) * State :=
  let l := default fetch_json_defaults headers in
  let σ1 := store l (<["Accept" := "application/json"]> (dict_at σ l)) σ in
  match make_request url "GET" (Some l) 30 query σ1 with
  | (inl e, σ2) => (inl e, σ2)
  | (inr response, σ2) =>
      match json response with
      | Some value => (inr value, σ2)
      | None => (inl JSONDecodeError, σ2)
      end
  end.

(** [fetch_text]. *)
Definition fetch_text (url : string) (σ : State) : (error + string) * State :=
  match make_request url "GET" None 30 None σ with
  | (inl e, σ1) => (inl e, σ1)
  | (inr response, σ1) => (inr (text response), σ1)
  end.

(** *** What a request carries and what it leaves behind *)

(** The headers that leave for [url] when the dict held [given]. *)
Definition outgoing (url : string) (given : gmap string string) : gmap string string :=
  if sends_token url
  then <["Authorization" := "token " +:+ default EmptyString GITHUB_TOKEN]>
         (<["User-Agent" := "treeherder/" +:+ SITE_HOSTNAME]> given)
  else <["User-Agent" := "treeherder/" +:+ SITE_HOSTNAME]> given.

(** The content of the dict the caller passed, if any. *)
Definition given_headers (headers : option nat) (σ : State) : gmap string string :=
  match headers with
  | Some l => dict_at σ l
  | None => ∅
  end.

Lemma headers_object_given (headers : option nat) (σ : State) :
  match headers_object headers σ with
  | Some l => dict_at σ l
  | None => ∅
  end = given_headers headers σ.
Proof.
  unfold headers_object, given_headers. destruct headers as [l|]; [|done].
  by case_decide.
Qed.

Lemma dict_at_store (l l' : nat) (d : gmap string string) (σ : State) :
  dict_at (store l d σ) l' = if decide (l = l') then d else dict_at σ l'.
Proof.
  unfold dict_at, store. simpl. case_decide as H.
  - subst. by rewrite lookup_insert_eq.
  - by rewrite lookup_insert_ne.
Qed.

Lemma outgoing_not_empty (url : string) (given : gmap string string) :
  outgoing url given <> ∅.
Proof.
  unfold outgoing. destruct (sends_token url); apply insert_non_empty.
Qed.

Lemma make_request_state (url method : string) (headers : option nat) (time_limit : Z)
    (query : option string) (σ : State) :
  sent (make_request url method headers time_limit query σ).2
  = sent σ ++ [{| method := method; address := url;
                  headers_sent := outgoing url (given_headers headers σ);
                  params := query; timeout := time_limit |}]
  /\ dicts (make_request url method headers time_limit query σ).2
     = match headers_object headers σ with
       | Some l => <[l := outgoing url (given_headers headers σ)]> (dicts σ)
       | None => dicts σ
       end.
Proof.
  unfold make_request. rewrite headers_object_given. fold (outgoing url (given_headers headers σ)).
  destruct (requests_request _) as [e|response]; simpl.
  - by destruct (headers_object headers σ).
  - by destruct (history response), (http_error response), (headers_object headers σ).
Qed.

(** X17: every call of [make_request] sends exactly one request, to the url
    it was given. Its User-Agent is treeherder/<SITE_HOSTNAME> whatever the
    caller's headers said; its Authorization is the GitHub token when a
    non-empty token is set and the url contains "api.github.com", and what the
    caller's headers said otherwise; every other header is the caller's. *)
Theorem make_request_headers (url method : string) (headers : option nat) (time_limit : Z)
    (query : option string) (σ : State) :
  exists request,
    sent (make_request url method headers time_limit query σ).2 = sent σ ++ [request]
    /\ address request = url
    /\ headers_sent request !! "User-Agent" = Some ("treeherder/" +:+ SITE_HOSTNAME)
    /\ headers_sent request !! "Authorization"
       = (if sends_token url
          then Some ("token " +:+ default EmptyString GITHUB_TOKEN)
          else given_headers headers σ !! "Authorization")
    /\ forall key, key <> "User-Agent" -> key <> "Authorization" ->
         headers_sent request !! key = given_headers headers σ !! key.
Proof.
  destruct (make_request_state url method headers time_limit query σ) as [-> _].
  eexists. split; [reflexivity|]. simpl. split; [reflexivity|].
  unfold outgoing. destruct (sends_token url).
  - split; [by rewrite lookup_insert_ne, lookup_insert_eq|].
    split; [by rewrite lookup_insert_eq|].
    intros key Hua Hauth. by rewrite !lookup_insert_ne.
  - split; [by rewrite lookup_insert_eq|].
    split; [by rewrite lookup_insert_ne|].
    intros key Hua Hauth. by rewrite lookup_insert_ne.
Qed.

(** X18: [make_request] writes into the dict its caller passed exactly when
    that dict is not empty: a non-empty dict is left holding the headers that
    were sent, an empty one stays empty (the headers went into a new dict),
    and no other dict is touched. *)
Theorem make_request_writes_dict (url method : string) (l : nat) (time_limit : Z)
    (query : option string) (σ : State) :
  dict_at (make_request url method (Some l) time_limit query σ).2 l
  = (if decide (dict_at σ l = ∅) then ∅ else outgoing url (dict_at σ l))
  /\ forall l', l' <> l ->
       dict_at (make_request url method (Some l) time_limit query σ).2 l' = dict_at σ l'.
Proof.
  destruct (make_request_state url method (Some l) time_limit query σ) as [_ Hdicts].
  unfold headers_object in Hdicts. simpl in Hdicts.
  destruct (decide (dict_at σ l = ∅)) as [Hempty|Hfilled].
  - split; [|intros l' _]; unfold dict_at; rewrite Hdicts; [exact Hempty|done].
  - split; [|intros l' Hl']; unfold dict_at; rewrite Hdicts.
    + by rewrite lookup_insert_eq.
    + by rewrite lookup_insert_ne.
Qed.

Lemma fetch_json_state (url : string) (query : option string) (headers : option nat)
    (σ : State) :
  let l := default fetch_json_defaults headers in
  let carried := outgoing url (<["Accept" := "application/json"]> (dict_at σ l)) in
  sent (fetch_json url query headers σ).2
  = sent σ ++ [{| method := "GET"; address := url; headers_sent := carried;
                  params := query; timeout := 30 |}]
  /\ dict_at (fetch_json url query headers σ).2 l = carried.
Proof.
  intros l carried. unfold fetch_json. fold l.
  set (σ1 := store l (<["Accept" := "application/json"]> (dict_at σ l)) σ).
  assert (dict_at σ1 l = <["Accept" := "application/json"]> (dict_at σ l)) as Hstored.
  { unfold σ1. rewrite dict_at_store. by case_decide. }
  destruct (make_request_state url "GET" (Some l) 30 query σ1) as [Hsent Hdicts].
  assert (headers_object (Some l) σ1 = Some l) as Hobject.
  { unfold headers_object. rewrite Hstored. case_decide as H; [|done].
    by apply insert_non_empty in H. }
  rewrite Hobject in Hdicts. unfold given_headers in Hsent, Hdicts.
  rewrite Hstored in Hsent, Hdicts. fold carried in Hsent, Hdicts.
  destruct (make_request url "GET" (Some l) 30 query σ1) as [[e|response] σ2];
    simpl in *; [|destruct (json response)]; simpl;
    (split; [exact Hsent|unfold dict_at; rewrite Hdicts; by rewrite lookup_insert_eq]).
Qed.

(** X19: [fetch_json] changes the dict it is given: after the call the
    caller's dict holds what was sent, with "application/json" as Accept and
    treeherder/<SITE_HOSTNAME> as User-Agent, whatever it held before. *)
Theorem fetch_json_writes_dict (url : string) (query : option string) (l : nat) (σ : State) :
  exists request,
    sent (fetch_json url query (Some l) σ).2 = sent σ ++ [request]
    /\ dict_at (fetch_json url query (Some l) σ).2 l = headers_sent request
    /\ headers_sent request !! "Accept" = Some "application/json"
    /\ headers_sent request !! "User-Agent" = Some ("treeherder/" +:+ SITE_HOSTNAME).
Proof.
  destruct (fetch_json_state url query (Some l) σ) as [Hsent Hdict]. simpl in *.
  eexists. split; [exact Hsent|]. split; [exact Hdict|]. simpl.
  unfold outgoing.
  destruct (sends_token url); split;
    repeat (rewrite lookup_insert_ne by done); by rewrite lookup_insert_eq.
Qed.

(** X20: the token outlives the request it was meant for. With a non-empty
    GitHub token set, once [fetch_json] has been called without headers for a
    url that contains "api.github.com", the dict that is the default value of
    [headers] holds the Authorization header, and every later call of
    [fetch_json] without headers sends the token, to any url at all. *)
Theorem fetch_json_token_stays (token url1 url2 : string) (query1 query2 : option string)
    (σ : State) :
  GITHUB_TOKEN = Some token ->
  token <> EmptyString ->
  (-1 < PyStr.find "api.github.com" url1)%Z ->
  exists request,
    sent (fetch_json url2 query2 None (fetch_json url1 query1 None σ).2).2
    = sent (fetch_json url1 query1 None σ).2 ++ [request]
    /\ address request = url2
    /\ headers_sent request !! "Authorization" = Some ("token " +:+ token).
Proof.
  intros Htoken Hset Hurl1.
  assert (sends_token url1 = true) as Hsends.
  { unfold sends_token. rewrite Htoken.
    apply andb_true_iff. split; [|by apply Z.ltb_lt].
    apply negb_true_iff, String.eqb_neq, Hset. }
  destruct (fetch_json_state url1 query1 None σ) as [_ Hdict1]. simpl in Hdict1.
  set (σ1 := (fetch_json url1 query1 None σ).2) in *.
  destruct (fetch_json_state url2 query2 None σ1) as [Hsent2 _]. simpl in Hsent2.
  eexists. split; [exact Hsent2|]. split; [reflexivity|]. simpl.
  rewrite Hdict1. unfold outgoing. rewrite Hsends, Htoken. simpl.
  destruct (sends_token url2);
    repeat (rewrite lookup_insert_ne by done); by rewrite lookup_insert_eq.
Qed.

(** X21: a response that was redirected is recorded with newrelic, with the
    number of its redirects, before its status is checked: [make_request]
    records the event also for a response on which it then raises. *)
Theorem make_request_records_redirects (url method : string) (headers : option nat)
    (time_limit : Z) (query : option string) (response : Response) (first : Hop)
    (others : list Hop) (σ : State) :
  requests_request {| method := method; address := url;
                      headers_sent := outgoing url (given_headers headers σ);
                      params := query; timeout := time_limit |} = inr response ->
  history response = first :: others ->
  (make_request url method headers time_limit query σ).1
  = match http_error response with
    | Some what => inl (HTTPError what)
    | None => inr response
    end
  /\ recorded (make_request url method headers time_limit query σ).2
     = recorded σ ++ [{| redirected_url := url;
                         redirects := S (length others);
                         hops := first :: others |}].
Proof.
  intros Hresponse Hhistory.
  unfold make_request. rewrite headers_object_given.
  fold (outgoing url (given_headers headers σ)).
  rewrite Hresponse, Hhistory.
  by destruct (http_error response), (headers_object headers σ).
Qed.

End Requests.

(** *** Scenarios *)

Definition nothing_yet : State := {| dicts := ∅; sent := []; recorded := [] |}.

(** A server that answers every request with an empty JSON object. *)
Definition answers (_ : Request) : error + Response :=
  inr {| history := []; http_error := None; json := Some "{}"; text := "{}" |}.

(** After a comparison was fetched from the GitHub API, the pushlog of another
    host is fetched: the request carries the GitHub token. *)
Lemma fetch_json_token_to_pushlog :
  exists request,
    sent (fetch_json "treeherder.mozilla.org" (Some "s3cr3t") answers
            "https://hg.mozilla.org/mozilla-central/json-pushes" None None
            (fetch_json "treeherder.mozilla.org" (Some "s3cr3t") answers
               "https://api.github.com/repos/mozilla-mobile/fenix/compare/master...head"
               None None nothing_yet).2).2
    = sent (fetch_json "treeherder.mozilla.org" (Some "s3cr3t") answers
              "https://api.github.com/repos/mozilla-mobile/fenix/compare/master...head"
              None None nothing_yet).2 ++ [request]
    /\ address request = "https://hg.mozilla.org/mozilla-central/json-pushes"
    /\ headers_sent request !! "Authorization" = Some "token s3cr3t".
Proof.
  apply (fetch_json_token_stays "treeherder.mozilla.org" (Some "s3cr3t") answers "s3cr3t"
           "https://api.github.com/repos/mozilla-mobile/fenix/compare/master...head"
           "https://hg.mozilla.org/mozilla-central/json-pushes" None None nothing_yet).
  - reflexivity.
  - discriminate.
  - reflexivity.
Defined.

(** A server that redirects once and then answers that nothing is there. *)
Definition moved_and_gone : Response :=
  {| history := [{| elapsed_microseconds := 120000 |}];
     http_error := Some "404 Client Error: Not Found";
     json := None;
     text := "Not Found" |}.

Lemma make_request_records_then_raises :
  (make_request "treeherder.mozilla.org" None (fun _ => inr moved_and_gone)
     "https://example.org/old" "GET" None 30 None nothing_yet).1
  = inl (HTTPError "404 Client Error: Not Found")
  /\ recorded (make_request "treeherder.mozilla.org" None (fun _ => inr moved_and_gone)
                 "https://example.org/old" "GET" None 30 None nothing_yet).2
     = [{| redirected_url := "https://example.org/old";
           redirects := 1;
           hops := [{| elapsed_microseconds := 120000 |}] |}].
Proof.
  exact (make_request_records_redirects "treeherder.mozilla.org" None
           (fun _ => inr moved_and_gone) "https://example.org/old" "GET" None 30 None
           moved_and_gone {| elapsed_microseconds := 120000 |} [] nothing_yet
           eq_refl eq_refl).
Defined.

End Http.
